(** * Flap'n'Flow: the simulation core of [src/components/FlappyBird.tsx]

    The React component keeps five pieces of state ([bird], [pipes],
    [gameStarted], [gameOver], [score]) and drives them from one
    [setInterval] callback, two input handlers ([jump], [resetGame]) and the
    pipe generator [generatePipe].  This file embeds those functions and
    proves the properties the specification states about them.

    Numbers.  JavaScript numbers are modelled as exact rationals ([Q]); the
    rounding of IEEE doubles is not modelled, except in [Binary64], which
    replays the worked example of the specification on doubles.  Comparisons
    are the boolean ones the code branches on.  [Math.random()] and
    [Date.now()] are inputs of a tick. *)

From Stdlib Require Import ZArith QArith Qminmax List Bool Lia Lqa.
From Stdlib Require Floats.PrimFloat.
Import ListNotations.

Open Scope Q_scope.

(** ** Numbers and comparisons *)

(** [a < b] and [a > b] of the source, as booleans. *)
Definition Qltb (a b : Q) : bool := negb (Qle_bool b a).
Definition Qgtb (a b : Q) : bool := Qltb b a.

Infix "<?" := Qltb (at level 70, no associativity) : Q_scope.
Infix ">?" := Qgtb (at level 70, no associativity) : Q_scope.

(** ** Data model (lines 4-16) *)

Record Bird := mkBird {
  bird_x : Q;
  bird_y : Q;
  velocity : Q
}.

Record Pipe := mkPipe {
  pipe_x : Q;
  topHeight : Q;
  bottomHeight : Q;
  pipe_id : Z;
  passed : bool
}.

(** ** Constants (lines 18-24, 32-33) *)

Definition BIRD_SIZE : Q := 24.
Definition PIPE_WIDTH : Q := 60.
Definition PIPE_GAP : Q := 150.
Definition GRAVITY : Q := 0.4.
Definition JUMP_FORCE : Q := -8.
Definition PIPE_SPEED : Q := 2.
Definition GROUND_HEIGHT : Q := 60.
Definition gameHeight : Q := 500.
Definition gameWidth : Q := 800.

(** ** Component state (lines 27-31)

    [isFlapping] only drives a CSS animation and is left out. *)

Record State := mkState {
  bird : Bird;
  pipes : list Pipe;
  gameStarted : bool;
  gameOver : bool;
  score : Z
}.

Definition initialBird : Bird := mkBird 100 250 0.

Definition initialState : State := mkState initialBird [] false false 0%Z.

(** The three phases of the specification, read off the two flags. *)
Inductive Phase := Idle | Running | Over.

Definition phase (s : State) : Phase :=
  if negb (gameStarted s) then Idle
  else if gameOver s then Over else Running.

Definition running (s : State) : bool := gameStarted s && negb (gameOver s).

(** ** State updates queued from inside an updater

    The updaters passed to [setBird] and [setPipes] call [setGameOver(true)]
    and [setScore(s => s + 1)].  An updater is modelled as a function that
    returns its new value together with the updates it queued, in order. *)

Inductive Update := SetGameOverTrue | ScorePlusOne.

Definition applyUpdate (s : State) (u : Update) : State :=
  match u with
  | SetGameOverTrue =>
      mkState (bird s) (pipes s) (gameStarted s) true (score s)
  | ScorePlusOne =>
      mkState (bird s) (pipes s) (gameStarted s) (gameOver s) (score s + 1)%Z
  end.

Definition applyUpdates (us : list Update) (s : State) : State :=
  fold_left applyUpdate us s.

(** ** [jump] (lines 36-46) and [resetGame] (lines 48-54) *)

Definition jump (s : State) : State :=
  if negb (gameStarted s) then
    mkState (bird s) (pipes s) true (gameOver s) (score s)
  else if gameOver s then s
  else
    mkState (mkBird (bird_x (bird s)) (bird_y (bird s)) JUMP_FORCE)
            (pipes s) (gameStarted s) (gameOver s) (score s).

Definition resetGame (s : State) : State :=
  mkState (mkBird 100 250 0) [] false false 0%Z.

(** ** [generatePipe] (lines 57-70)

    [r] is the value of [Math.random()], [now] that of [Date.now()]. *)

Definition generatePipe (r : Q) (now : Z) (x : Q) : Pipe :=
  let minHeight := 50 in
  let maxHeight := gameHeight - GROUND_HEIGHT - PIPE_GAP - 50 in
  let topHeight := r * (maxHeight - minHeight) + minHeight in
  let bottomHeight := gameHeight - GROUND_HEIGHT - topHeight - PIPE_GAP in
  mkPipe x topHeight bottomHeight now false.

(** ** The updater given to [setBird] (lines 77-94) *)

Definition birdUpdater (prev : Bird) : Bird * list Update :=
  let newY := bird_y prev + velocity prev in
  let newVelocity := velocity prev + GRAVITY in
  if newY >? gameHeight - GROUND_HEIGHT - BIRD_SIZE then
    (prev, [SetGameOverTrue])
  else if newY <? 0 then
    (mkBird (bird_x prev) 0 0, [])
  else
    (mkBird (bird_x prev) newY newVelocity, []).

(** ** The updater given to [setPipes] (lines 96-136)

    [b] is the [bird] the effect closure captured. *)

Definition movePipe (pipe : Pipe) : Pipe :=
  mkPipe (pipe_x pipe - PIPE_SPEED) (topHeight pipe) (bottomHeight pipe)
         (pipe_id pipe) (passed pipe).

Definition onScreen (pipe : Pipe) : bool := pipe_x pipe >? - PIPE_WIDTH.

Definition needsPipe (newPipes : list Pipe) : bool :=
  match rev newPipes with
  | [] => true
  | lastPipe :: _ => pipe_x lastPipe <? gameWidth - 300
  end.

(** Lines 102-108: move, filter, push. *)
Definition advancePipes (r : Q) (now : Z) (prev : list Pipe) : list Pipe :=
  let newPipes := filter onScreen (map movePipe prev) in
  if needsPipe newPipes then newPipes ++ [generatePipe r now gameWidth]
  else newPipes.

(** Lines 120-124: the scoring branch of the [forEach] body. *)
Definition scorePipe (b : Bird) (pipe : Pipe) : Pipe * list Update :=
  let birdLeft := bird_x b in
  let pipeRight := pipe_x pipe + PIPE_WIDTH in
  if negb (passed pipe) && (birdLeft >? pipeRight) then
    (mkPipe (pipe_x pipe) (topHeight pipe) (bottomHeight pipe)
            (pipe_id pipe) true,
     [ScorePlusOne])
  else (pipe, []).

(** Lines 126-132: the collision branch of the [forEach] body. *)
Definition hitsPipe (b : Bird) (pipe : Pipe) : bool :=
  let birdLeft := bird_x b in
  let birdRight := bird_x b + BIRD_SIZE in
  let birdTop := bird_y b in
  let birdBottom := bird_y b + BIRD_SIZE in
  let pipeLeft := pipe_x pipe in
  let pipeRight := pipe_x pipe + PIPE_WIDTH in
  (birdRight >? pipeLeft) && (birdLeft <? pipeRight) &&
  ((birdTop <? topHeight pipe) ||
   (birdBottom >? gameHeight - GROUND_HEIGHT - bottomHeight pipe)).

Definition collidePipe (b : Bird) (pipe : Pipe) : list Update :=
  if hitsPipe b pipe then [SetGameOverTrue] else [].

(** One iteration of the [forEach] body: score, then collide. *)
Definition checkPipe (b : Bird) (pipe : Pipe) : Pipe * list Update :=
  let '(pipe', us) := scorePipe b pipe in
  (pipe', us ++ collidePipe b pipe').

(** [newPipes.forEach(...)]: the pipes are mutated in place, the queued
    updates accumulate in iteration order. *)
Fixpoint forEachPipe (b : Bird) (ps : list Pipe) : list Pipe * list Update :=
  match ps with
  | [] => ([], [])
  | pipe :: rest =>
      let '(pipe', us) := checkPipe b pipe in
      let '(rest', us') := forEachPipe b rest in
      (pipe' :: rest', us ++ us')
  end.

Definition pipesUpdater (b : Bird) (r : Q) (now : Z) (prev : list Pipe)
  : list Pipe * list Update :=
  forEachPipe b (advancePipes r now prev).

(** ** The interval callback (lines 76-137)

    The callback calls [setBird] and then [setPipes], unconditionally.  The
    first updater receives the current bird; the second reads [bird] from
    the closure of the effect, passed here as [captured]. *)

Definition gameLoop (captured : Bird) (r : Q) (now : Z) (s : State) : State :=
  let '(newBird, us1) := birdUpdater (bird s) in
  let '(newPipes, us2) := pipesUpdater captured r now (pipes s) in
  applyUpdates (us1 ++ us2)
    (mkState newBird newPipes (gameStarted s) (gameOver s) (score s)).

(** The effect (lines 73-140) installs the interval only while the game is
    started and not over, and is re-run whenever [bird.x] or [bird.y]
    changes: the captured bird agrees with the state on the two fields the
    callback reads. *)
Definition tick (r : Q) (now : Z) (s : State) : State :=
  if running s then gameLoop (bird s) r now s else s.

(** ** Runs of the component *)

Inductive Event :=
| Jump
| ResetGame
| Tick (r : Q) (now : Z).

Definition step (s : State) (e : Event) : State :=
  match e with
  | Jump => jump s
  | ResetGame => resetGame s
  | Tick r now => tick r now s
  end.

Definition run (es : list Event) (s : State) : State := fold_left step es s.

(** [Math.random()] returns a number in [0, 1). *)
Definition validEvent (e : Event) : Prop :=
  match e with
  | Tick r _ => 0 <= r /\ r < 1
  | _ => True
  end.

Definition reachable (s : State) : Prop :=
  exists es, Forall validEvent es /\ s = run es initialState.

(** ** The effect and its closure (lines 73-140)

    The state machine above passes the state's own bird to [gameLoop].  The
    component does not: the interval callback reads the [bird] of the render
    in which the effect last ran.  [Component] keeps that captured bird next
    to the state; [render] re-runs the effect when one of its dependencies
    [gameStarted], [gameOver], [bird.x], [bird.y] changed (the remaining
    dependencies never change). *)

Record Component := mkComponent {
  state : State;
  interval : option Bird
}.

Definition sameDeps (s s' : State) : bool :=
  Bool.eqb (gameStarted s) (gameStarted s') &&
  Bool.eqb (gameOver s) (gameOver s') &&
  Qeq_bool (bird_x (bird s)) (bird_x (bird s')) &&
  Qeq_bool (bird_y (bird s)) (bird_y (bird s')).

(** The effect body: line 74, then [setInterval] with the current bird. *)
Definition effect (s : State) : option Bird :=
  if negb (gameStarted s) || gameOver s then None else Some (bird s).

Definition render (c : Component) (s' : State) : Component :=
  mkComponent s' (if sameDeps (state c) s' then interval c else effect s').

Definition mount : Component := mkComponent initialState (effect initialState).

(** The interval fires, if one is installed. *)
Definition fire (r : Q) (now : Z) (c : Component) : Component :=
  match interval c with
  | Some captured => render c (gameLoop captured r now (state c))
  | None => c
  end.

Definition componentStep (c : Component) (e : Event) : Component :=
  match e with
  | Jump => render c (jump (state c))
  | ResetGame => render c (resetGame (state c))
  | Tick r now => fire r now c
  end.

Definition componentRun (es : list Event) : Component :=
  fold_left componentStep es mount.

(** ** The bird updater on doubles

    Lines 43 and 77-94 once more, with the binary64 arithmetic JavaScript
    computes with, to replay the worked example of the specification. *)

Module Binary64.

Import PrimFloat.

Record Bird := mkBird {
  bird_x : float;
  bird_y : float;
  velocity : float
}.

Definition BIRD_SIZE : float := 24%float.
#[warnings="-inexact-float"]
Definition GRAVITY : float := 0.4%float.
Definition JUMP_FORCE : float := (-8)%float.
Definition GROUND_HEIGHT : float := 60%float.
Definition gameHeight : float := 500%float.

Definition jumpBird (prev : Bird) : Bird :=
  mkBird (bird_x prev) (bird_y prev) JUMP_FORCE.

Definition birdUpdater (prev : Bird) : Bird * bool :=
  let newY := (bird_y prev + velocity prev)%float in
  let newVelocity := (velocity prev + GRAVITY)%float in
  if ltb (gameHeight - GROUND_HEIGHT - BIRD_SIZE)%float newY then
    (prev, true)
  else if ltb newY 0%float then
    (mkBird (bird_x prev) 0%float 0%float, false)
  else
    (mkBird (bird_x prev) newY newVelocity, false).

Definition initialBird : Bird := mkBird 100%float 250%float 0%float.

(** The doubles the literals [-7.6], [242] and [242.4] denote (the nearest
    ones, as in JavaScript), and [===]. *)
#[warnings="-inexact-float"]
Definition minus7_6 : float := (-7.6)%float.
Definition plus242 : float := 242%float.
#[warnings="-inexact-float"]
Definition plus242_4 : float := 242.4%float.

Definition strictEq (a b : float) : bool := eqb a b.

End Binary64.

(** * Vocabulary of the properties *)

(** The interval callback advances the simulation by one frame: the step
    [dt] of the specification is the constant 1. *)
Definition dt : Q := 1.

(** The ground line of the bird updater (line 82). *)
Definition groundLimit : Q := gameHeight - GROUND_HEIGHT - BIRD_SIZE.

(** What a list of queued updates does to the score and to [gameOver]. *)

Definition countScore (us : list Update) : Z :=
  Z.of_nat (length (filter (fun u => match u with ScorePlusOne => true | _ => false end) us)).

Definition anyGameOver (us : list Update) : bool :=
  existsb (fun u => match u with SetGameOverTrue => true | _ => false end) us.

(** The passed pipes of a list. *)
Definition countPassed (ps : list Pipe) : Z :=
  Z.of_nat (length (filter passed ps)).

(** The guard of the scoring branch (line 121), and the pipe the branch
    leaves behind. *)
Definition fires (b : Bird) (pipe : Pipe) : bool :=
  negb (passed pipe) && (bird_x b >? pipe_x pipe + PIPE_WIDTH).

Definition markPassed (b : Bird) (pipe : Pipe) : Pipe := fst (scorePipe b pipe).

Definition countFires (b : Bird) (ps : list Pipe) : Z :=
  Z.of_nat (length (filter (fires b) ps)).

(** The geometry of a generated pipe. *)
Definition minGapTop : Q := 50.

Definition maxGapTop : Q := gameHeight - GROUND_HEIGHT - PIPE_GAP - minGapTop.

Definition pipeOK (pipe : Pipe) : Prop :=
  topHeight pipe + PIPE_GAP + bottomHeight pipe == gameHeight - GROUND_HEIGHT /\
  minGapTop <= topHeight pipe /\ topHeight pipe <= maxGapTop.

(** The spawn rule in the words of the specification. *)
Definition spawnSpacing : Q := 300.

Definition rightmost (p : Pipe) (ps : list Pipe) : Prop :=
  In p ps /\ forall q, In q ps -> pipe_x q <= pipe_x p.

Definition spawnCondition (ps : list Pipe) : Prop :=
  ps = [] \/ exists p, rightmost p ps /\ pipe_x p < gameWidth - spawnSpacing.

(** The pipes a tick keeps (lines 97-103). *)
Definition keptPipes (ps : list Pipe) : list Pipe :=
  filter onScreen (map movePipe ps).

(** The last pipe of the array is the rightmost one; stated on the reversed
    list, as [needsPipe] reads it. *)
Definition headIsRightmost (l : list Pipe) : Prop :=
  match l with
  | [] => True
  | lastPipe :: before => Forall (fun q => pipe_x q <= pipe_x lastPipe) before
  end.

Definition lastIsRightmost (ps : list Pipe) : Prop := headIsRightmost (rev ps).

Definition inField (ps : list Pipe) : Prop :=
  Forall (fun p => pipe_x p <= gameWidth) ps.

(** The pipes a tick drops (line 103), and a count kept alongside a run: the
    passed pipes dropped since the last [resetGame]. *)
Definition dropped (ps : list Pipe) : list Pipe :=
  filter (fun pipe => negb (onScreen pipe)) (map movePipe ps).

Definition prunedStep (s : State) (g : Z) (e : Event) : Z :=
  match e with
  | Jump => g
  | ResetGame => 0%Z
  | Tick _ _ => if running s then (g + countPassed (dropped (pipes s)))%Z else g
  end.

Fixpoint prunedPassedFrom (s : State) (g : Z) (es : list Event) : Z :=
  match es with
  | [] => g
  | e :: es' => prunedPassedFrom (step s e) (prunedStep s g e) es'
  end.

Definition prunedPassed (es : list Event) : Z :=
  prunedPassedFrom initialState 0%Z es.

(** ** One pipe over consecutive frames

    What a tick does to a pipe that stays in the list: it is moved, then the
    scoring branch runs against the bird captured for that frame.
    [pipeFrames] lists the score increments the pipe causes frame by frame,
    for as long as it is followed. *)
Definition pipeFrame (b : Bird) (pipe : Pipe) : Pipe * list Update :=
  scorePipe b (movePipe pipe).

Fixpoint pipeFrames (bs : list Bird) (pipe : Pipe) : list Z :=
  match bs with
  | [] => []
  | b :: bs' =>
      let '(pipe', us) := pipeFrame b pipe in
      countScore us :: pipeFrames bs' pipe'
  end.

Definition sumZ (l : list Z) : Z := fold_right Z.add 0%Z l.

(** In frame [k] the bird's left edge is past the right edge of the pipe,
    which by then has moved [k + 1] times. *)
Definition clearedAt (bs : list Bird) (pipe : Pipe) (k : nat) : Prop :=
  exists b,
    nth_error bs k = Some b /\
    pipe_x pipe - inject_Z (Z.of_nat (S k)) * PIPE_SPEED + PIPE_WIDTH < bird_x b.

Definition firstClearedAt (bs : list Bird) (pipe : Pipe) (k : nat) : Prop :=
  clearedAt bs pipe k /\ forall j, (j < k)%nat -> ~ clearedAt bs pipe j.

(** The captured bird stands where the state's bird stands. *)
Definition closureFresh (c : Component) : Prop :=
  if running (state c) then
    exists captured,
      interval c = Some captured /\
      bird_x captured == bird_x (bird (state c)) /\
      bird_y captured == bird_y (bird (state c))
  else interval c = None.

(** * Scenarios

    Runs of the game used to exercise the theorems. *)

(** The scenario of the specification's worked example: a running game with
    the bird at its start position and velocity 0. *)
Definition startRunning : State := mkState initialBird [] true false 0%Z.

(** A game started by a first [jump] and left alone for [n] frames. *)
Definition freeFall (n : nat) : State :=
  run (Jump :: repeat (Tick 0.5 0%Z) n) initialState.

(** A game in which every frame is preceded by a [jump], [n] times over,
    with one more [jump] pending. *)
Definition climb (n : nat) : State :=
  run (Jump :: concat (repeat [Jump; Tick 0.5 0%Z] n) ++ [Jump]) initialState.

(** A flight that takes the bird through the first pipe: [hold] keeps it
    at the ceiling with a [jump] before every frame, [glide] lets it fall.
    All pipes are generated with [Math.random() = 0], gap from 50 to 200. *)
Definition hold (n : nat) : list Event := concat (repeat [Jump; Tick 0 0%Z] n).

Definition glide (n : nat) : list Event := repeat (Tick 0 0%Z) n.

Definition flight (n : nat) : list Event :=
  Jump :: hold 310 ++ glide 30 ++ [Jump] ++ glide 41 ++ hold n.

(** The state of [flight] one frame before the first pipe is cleared. *)
Definition beforeClearing : State := run (flight 0) initialState.

(** [flight], cut while the bird falls through the gap of the first pipe. *)
Definition diving : list Event := Jump :: hold 310 ++ glide 30.

(** * The rest of the component *)

(** ** What the render shows (lines 155-256)

    The bird is drawn rotated by its velocity (line 181); the game-over
    panel and the start panel are conditional (lines 223 and 239). *)

Definition rotation (b : Bird) : Q := Qmin (Qmax (velocity b * 3) (-30)) 90.

Definition gameOverScreen (s : State) : bool := gameOver s.

Definition startScreen (s : State) : bool :=
  negb (gameStarted s) && negb (gameOver s).

(** ** Vocabulary of the further properties *)

Definition isTick (e : Event) : bool :=
  match e with Tick _ _ => true | _ => false end.

Definition isResetGame (e : Event) : bool :=
  match e with ResetGame => true | _ => false end.


(** A quantity the free flight of the bird conserves: with [y' = y + v] and
    [v' = v + GRAVITY], [2 * GRAVITY * y - v * (v - GRAVITY)] is unchanged. *)
Definition flightEnergy (b : Bird) : Q :=
  2 * GRAVITY * bird_y b - velocity b * (velocity b - GRAVITY).

(** The state of [flight] right after the first pipe is cleared. *)
Definition afterClearing : State := tick 0 0%Z beforeClearing.

(** Pipes in a row: newest first, each one [pipeSpacing] left of the one
    before it, the newest at [x0]. *)
Definition pipeSpacing : Q := 302.

Fixpoint spacedFrom (x0 : Q) (l : list Pipe) : Prop :=
  match l with
  | [] => True
  | p :: l' => pipe_x p == x0 /\ spacedFrom (x0 - pipeSpacing) l'
  end.

(** The newest pipe has moved [k] times since it was added at [gameWidth]. *)
Definition evenlySpaced (ps : list Pipe) : Prop :=
  exists k : Z,
    (0 <= k <= 150)%Z /\
    spacedFrom (gameWidth - inject_Z k * PIPE_SPEED) (rev ps).

(** The horizontal part of the collision test (line 127). *)
Definition overlapsPipe (b : Bird) (pipe : Pipe) : bool :=
  (bird_x b + BIRD_SIZE >? pipe_x pipe) &&
  (bird_x b <? pipe_x pipe + PIPE_WIDTH).

(** [Date.now()] read in a tick is greater than in every tick before it;
    [t] is the latest value read so far. *)
Fixpoint clockIncreasing (t : Z) (es : list Event) : bool :=
  match es with
  | [] => true
  | Tick _ now :: es' => (t <? now)%Z && clockIncreasing now es'
  | _ :: es' => clockIncreasing t es'
  end.

(** A clock for a list of events: the ticks are stamped 17 apart from [t]. *)
Fixpoint stamp (t : Z) (es : list Event) : list Event :=
  match es with
  | [] => []
  | Tick r _ :: es' => Tick r t :: stamp (t + 17) es'
  | e :: es' => e :: stamp t es'
  end.

(** Lower bounds for the velocity and the position of a bird left alone for
    [n] frames, whatever it was doing before: the velocity can start at
    [JUMP_FORCE], and the position counts from the ceiling as long as the
    bird may still be rising. *)
Fixpoint fallVelocity (n : nat) : Q :=
  match n with
  | O => JUMP_FORCE
  | S n' => fallVelocity n' + GRAVITY
  end.

Fixpoint fallDepth (n : nat) : Q :=
  match n with
  | O => 0
  | S n' => if fallVelocity n' <? 0 then 0 else fallDepth n' + fallVelocity n'
  end.

(** A game that is over, or a running one whose bird is at least as fast and
    as deep as a bird left alone for [n] frames must be. *)
Definition fallingFor (n : nat) (s : State) : Prop :=
  gameOver s = true \/
  (running s = true /\
   0 <= bird_y (bird s) /\ bird_y (bird s) <= groundLimit /\
   fallVelocity n <= velocity (bird s) /\
   fallDepth n <= bird_y (bird s)).

(** * Basic facts *)

Lemma Qltb_true (a b : Q) : (a <? b) = true <-> a < b.
Proof.
  unfold Qltb. rewrite negb_true_iff.
  split; intro H.
  - apply Qnot_le_lt. intro L. apply Qle_bool_iff in L. congruence.
  - destruct (Qle_bool b a) eqn:E; [|reflexivity].
    apply Qle_bool_iff in E. exfalso. now apply (Qle_not_lt b a).
Qed.

Lemma Qltb_false (a b : Q) : (a <? b) = false <-> b <= a.
Proof.
  unfold Qltb. rewrite negb_false_iff. apply Qle_bool_iff.
Qed.

Lemma Qgtb_true (a b : Q) : (a >? b) = true <-> b < a.
Proof. apply Qltb_true. Qed.

Lemma Qgtb_false (a b : Q) : (a >? b) = false <-> a <= b.
Proof. apply Qltb_false. Qed.

Lemma Qltb_ext (a a' b b' : Q) : a == a' -> b == b' -> (a <? b) = (a' <? b').
Proof.
  intros Ha Hb. unfold Qltb. now rewrite Ha, Hb.
Qed.

Lemma countScore_app (us vs : list Update) :
  countScore (us ++ vs) = (countScore us + countScore vs)%Z.
Proof.
  unfold countScore. rewrite filter_app, length_app. lia.
Qed.

Lemma countScore_nonneg (us : list Update) : (0 <= countScore us)%Z.
Proof. unfold countScore. lia. Qed.

Lemma anyGameOver_app (us vs : list Update) :
  anyGameOver (us ++ vs) = anyGameOver us || anyGameOver vs.
Proof. apply existsb_app. Qed.

Lemma applyUpdates_eq (us : list Update) (s : State) :
  applyUpdates us s =
  mkState (bird s) (pipes s) (gameStarted s)
          (gameOver s || anyGameOver us) (score s + countScore us)%Z.
Proof.
  revert s. induction us as [|u us IH]; intro s.
  - destruct s; simpl. now rewrite orb_false_r, Z.add_0_r.
  - unfold applyUpdates in *. simpl fold_left. rewrite IH.
    change (u :: us) with ([u] ++ us).
    rewrite countScore_app, anyGameOver_app.
    destruct u; cbn [applyUpdate bird pipes gameStarted gameOver score];
      f_equal;
      first [ reflexivity
            | now destruct (gameOver s)
            | change (countScore [SetGameOverTrue]) with 0%Z; lia
            | change (countScore [ScorePlusOne]) with 1%Z; lia ].
Qed.

(** A tick of a running game, field by field. *)

Lemma running_flags (s : State) :
  running s = true -> gameStarted s = true /\ gameOver s = false.
Proof.
  unfold running. rewrite andb_true_iff, negb_true_iff. tauto.
Qed.

Lemma tick_running (r : Q) (now : Z) (s : State) :
  running s = true ->
  tick r now s =
  mkState (fst (birdUpdater (bird s)))
          (fst (pipesUpdater (bird s) r now (pipes s)))
          true
          (anyGameOver (snd (birdUpdater (bird s))) ||
           anyGameOver (snd (pipesUpdater (bird s) r now (pipes s))))
          (score s + countScore (snd (pipesUpdater (bird s) r now (pipes s))))%Z.
Proof.
  intro R. destruct (running_flags s R) as [Hs Ho].
  unfold tick, gameLoop. rewrite R.
  destruct (birdUpdater (bird s)) as [b us1] eqn:Eb.
  destruct (pipesUpdater (bird s) r now (pipes s)) as [ps us2].
  rewrite applyUpdates_eq. simpl.
  rewrite Hs, Ho, anyGameOver_app, countScore_app. simpl. f_equal.
  unfold birdUpdater in Eb.
  destruct (_ >? _); [|destruct (_ <? _)]; inversion Eb; reflexivity.
Qed.

Lemma tick_not_running (r : Q) (now : Z) (s : State) :
  running s = false -> tick r now s = s.
Proof. intro R. unfold tick. now rewrite R. Qed.

(** Runs and reachable states. *)

Lemma run_snoc (es : list Event) (e : Event) (s : State) :
  run (es ++ [e]) s = step (run es s) e.
Proof. unfold run. now rewrite fold_left_app. Qed.

Lemma reachable_initial : reachable initialState.
Proof. exists []. split; [constructor | reflexivity]. Qed.

Lemma reachable_step (s : State) (e : Event) :
  reachable s -> validEvent e -> reachable (step s e).
Proof.
  intros [es [V ->]] Ve. exists (es ++ [e]). split.
  - apply Forall_app. split; [assumption | now constructor].
  - now rewrite run_snoc.
Qed.

Lemma reachable_tick (r : Q) (now : Z) (s : State) :
  reachable s -> 0 <= r -> r < 1 -> reachable (tick r now s).
Proof.
  intros H H0 H1. apply (reachable_step s (Tick r now) H). now split.
Qed.

Lemma reachable_induction (P : State -> Prop) :
  P initialState ->
  (forall s e, reachable s -> validEvent e -> P s -> P (step s e)) ->
  forall s, reachable s -> P s.
Proof.
  intros H0 Hstep s [es [V ->]].
  induction es as [|e es IH] using rev_ind.
  - exact H0.
  - apply Forall_app in V. destruct V as [V Ve].
    rewrite run_snoc. apply Hstep.
    + exists es. now split.
    + now inversion Ve.
    + now apply IH.
Qed.

Lemma valid_half (now : Z) : validEvent (Tick 0.5 now).
Proof. split; [discriminate | reflexivity]. Qed.

Lemma Forall_repeat_intro {A} (P : A -> Prop) (x : A) (n : nat) :
  P x -> Forall P (repeat x n).
Proof. intro H. induction n; simpl; constructor; auto. Qed.

Lemma reachable_freeFall (n : nat) : reachable (freeFall n).
Proof.
  exists (Jump :: repeat (Tick 0.5 0%Z) n). split; [|reflexivity].
  constructor; [exact I|]. apply Forall_repeat_intro, valid_half.
Qed.

Lemma reachable_climb (n : nat) : reachable (climb n).
Proof.
  exists (Jump :: concat (repeat [Jump; Tick 0.5 0%Z] n) ++ [Jump]).
  split; [|reflexivity].
  constructor; [exact I|]. apply Forall_app. split.
  - apply Forall_concat, Forall_repeat_intro.
    constructor; [exact I|]. constructor; [apply valid_half | constructor].
  - constructor; [exact I | constructor].
Qed.

(** * The bird updater *)

Lemma birdUpdater_ground (prev : Bird) :
  groundLimit < bird_y prev + velocity prev ->
  birdUpdater prev = (prev, [SetGameOverTrue]).
Proof.
  intro H. unfold birdUpdater.
  apply Qgtb_true in H. fold groundLimit. now rewrite H.
Qed.

Lemma birdUpdater_ceiling (prev : Bird) :
  bird_y prev + velocity prev < 0 ->
  birdUpdater prev = (mkBird (bird_x prev) 0 0, []).
Proof.
  intro H. unfold birdUpdater. fold groundLimit.
  assert (G : (bird_y prev + velocity prev >? groundLimit) = false).
  { apply Qgtb_false. unfold groundLimit, gameHeight, GROUND_HEIGHT, BIRD_SIZE. lra. }
  rewrite G. apply Qltb_true in H. now rewrite H.
Qed.

Lemma birdUpdater_free (prev : Bird) :
  0 <= bird_y prev + velocity prev ->
  bird_y prev + velocity prev <= groundLimit ->
  birdUpdater prev =
  (mkBird (bird_x prev) (bird_y prev + velocity prev) (velocity prev + GRAVITY),
   []).
Proof.
  intros H0 H1. unfold birdUpdater. fold groundLimit.
  apply Qgtb_false in H1. apply Qltb_false in H0. now rewrite H1, H0.
Qed.

(** C2.  On a tick of a running game the bird updater integrates with the
    fixed step [dt = 1]: the candidate position is [y + velocity * dt], taken
    with the velocity held before gravity is added, and the candidate
    velocity is [velocity + GRAVITY * dt].  The candidates are what the tick
    stores unless the position leaves the field: past the ground line the
    bird is kept, above the ceiling it is put at 0 with velocity 0. *)
Theorem physics_integration (r : Q) (now : Z) (s : State) :
  running s = true ->
  let b := bird s in
  let b' := bird (tick r now s) in
  let newY := bird_y b + velocity b * dt in
  let newVelocity := velocity b + GRAVITY * dt in
  (0 <= newY -> newY <= groundLimit ->
     bird_x b' = bird_x b /\ bird_y b' == newY /\ velocity b' == newVelocity) /\
  (newY < 0 -> b' = mkBird (bird_x b) 0 0) /\
  (groundLimit < newY -> b' = b).
Proof.
  intros R b b' newY newVelocity.
  assert (E : newY == bird_y b + velocity b) by (unfold newY, dt; ring).
  unfold b'. rewrite (tick_running r now s R). cbn [bird].
  repeat split; intros.
  - rewrite birdUpdater_free; [reflexivity | fold b; lra ..].
  - rewrite birdUpdater_free; [cbn [fst bird_y]; fold b; lra | fold b; lra ..].
  - rewrite birdUpdater_free; [|fold b; lra ..].
    cbn [fst velocity]. unfold newVelocity, dt. fold b. ring.
  - rewrite birdUpdater_ceiling; [reflexivity | fold b; lra].
  - rewrite birdUpdater_ground; [reflexivity | fold b; lra].
Qed.

Lemma physics_integration_witness :
  running (freeFall 3) = true /\
  bird_y (bird (tick 0.5 0%Z (freeFall 3))) == 252.4 /\
  velocity (bird (tick 0.5 0%Z (freeFall 3))) == 1.6.
Proof.
  split; [reflexivity|].
  destruct (physics_integration 0.5 0%Z (freeFall 3) eq_refl) as [H _].
  destruct H as [_ [Hy Hv]].
  - vm_compute. discriminate.
  - vm_compute. discriminate.
  - split.
    + rewrite Hy. vm_compute. reflexivity.
    + rewrite Hv. vm_compute. reflexivity.
Defined.

(** C3, as stated, fails: after [jump] and one tick the position is not
    242.4, whether the game was already running (the jump sets the velocity)
    or still idle (the jump only starts the game). *)
Lemma jump_then_tick_not_242_4 :
  ~ bird_y (bird (tick 0.5 0%Z (jump startRunning))) == 242.4 /\
  ~ bird_y (bird (tick 0.5 0%Z (jump initialState))) == 242.4.
Proof.
  split; intro H; vm_compute in H; discriminate.
Qed.

(** C3, amended.  With GRAVITY = 0.4 and JUMP_FORCE = -8, from the running
    start state (x = 100, y = 250, velocity = 0), [jump] followed by one tick
    gives velocity -7.6 and position 242: the position moved by the jump
    velocity -8, not by the velocity after gravity. *)
Theorem jump_then_tick (r : Q) (now : Z) :
  GRAVITY == 0.4 /\ JUMP_FORCE == -8 /\
  velocity (bird (tick r now (jump startRunning))) == -7.6 /\
  bird_y (bird (tick r now (jump startRunning))) == 242.
Proof.
  repeat split; try reflexivity.
Qed.

(** The same example on doubles: [-8 + 0.4] rounds to the double written
    [-7.6], and the position is 242, not 242.4. *)
Lemma binary64_jump_then_tick :
  let b := fst (Binary64.birdUpdater (Binary64.jumpBird Binary64.initialBird)) in
  Binary64.strictEq (Binary64.velocity b) Binary64.minus7_6 = true /\
  Binary64.strictEq (Binary64.bird_y b) Binary64.plus242 = true /\
  Binary64.strictEq (Binary64.bird_y b) Binary64.plus242_4 = false.
Proof.
  repeat split; vm_compute; reflexivity.
Qed.

(** C4.  On a tick of a running game whose integrated position exceeds
    [gameHeight - GROUND_HEIGHT - BIRD_SIZE], the game is over afterwards and
    the bird is the bird from before the tick: position and velocity are
    neither updated nor clamped. *)
Theorem ground_collision_freezes_bird (r : Q) (now : Z) (s : State) :
  running s = true ->
  gameHeight - GROUND_HEIGHT - BIRD_SIZE < bird_y (bird s) + velocity (bird s) ->
  phase (tick r now s) = Over /\ bird (tick r now s) = bird s.
Proof.
  intros R G. rewrite (tick_running r now s R).
  rewrite (birdUpdater_ground (bird s) G). split; reflexivity.
Qed.

Lemma ground_collision_freezes_bird_witness :
  phase (tick 0.5 0%Z (freeFall 29)) = Over /\
  bird (tick 0.5 0%Z (freeFall 29)) = bird (freeFall 29).
Proof.
  apply (ground_collision_freezes_bird 0.5 0%Z (freeFall 29)).
  - vm_compute. reflexivity.
  - vm_compute. reflexivity.
Defined.

(** C5, as stated, fails: the tick that ends the game on the ground still
    moves the pipes. *)
Lemma ground_collision_moves_pipes :
  ~ (forall (r : Q) (now : Z) (s : State),
       reachable s -> running s = true ->
       groundLimit < bird_y (bird s) + velocity (bird s) ->
       pipes (tick r now s) = pipes s).
Proof.
  intro H.
  assert (E := H 0.5 0%Z (freeFall 29) (reachable_freeFall 29)).
  assert (P : map pipe_x (pipes (tick 0.5 0%Z (freeFall 29))) =
              map pipe_x (pipes (freeFall 29))).
  { f_equal. apply E; vm_compute; reflexivity. }
  vm_compute in P. discriminate.
Qed.

(** C5, amended.  On the tick that ends the game on the ground the bird is
    kept, and the pipes are updated as on every other tick of a running
    game: the callback still runs the pipes updater against the bird from
    before the tick, and the score takes its increments.  Ticks stop with
    the next one. *)
Theorem ground_collision_still_updates_pipes (r : Q) (now : Z) (s : State) :
  running s = true ->
  groundLimit < bird_y (bird s) + velocity (bird s) ->
  let s' := tick r now s in
  bird s' = bird s /\
  gameOver s' = true /\
  pipes s' = fst (forEachPipe (bird s) (advancePipes r now (pipes s))) /\
  score s' =
    (score s +
     countScore (snd (forEachPipe (bird s) (advancePipes r now (pipes s)))))%Z /\
  forall r' now', tick r' now' s' = s'.
Proof.
  intros R G s'. unfold s'.
  rewrite (tick_running r now s R), (birdUpdater_ground (bird s) G).
  cbn [fst snd bird pipes gameOver score anyGameOver existsb orb].
  do 4 (split; [reflexivity|]).
  intros r' now'. apply tick_not_running.
  unfold running. cbn [gameStarted gameOver]. reflexivity.
Qed.

Lemma ground_collision_still_updates_pipes_witness :
  map pipe_x (pipes (freeFall 29)) = [744] /\
  map pipe_x (pipes (tick 0.5 0%Z (freeFall 29))) = [742] /\
  gameOver (tick 0.5 0%Z (freeFall 29)) = true.
Proof.
  assert (R : running (freeFall 29) = true) by (vm_compute; reflexivity).
  assert (G : groundLimit <
              bird_y (bird (freeFall 29)) + velocity (bird (freeFall 29)))
    by (vm_compute; reflexivity).
  destruct (ground_collision_still_updates_pipes 0.5 0%Z (freeFall 29) R G)
    as [_ [Ho [Hp _]]].
  split; [vm_compute; reflexivity|]. split; [|exact Ho].
  rewrite Hp. vm_compute. reflexivity.
Defined.

(** * The pipes updater *)

(** An element of [map f l] is [f q] for some [q] of [l]. *)
Ltac preimage H q Hq :=
  apply in_map_iff in H; destruct H as [q [<- Hq]].

Lemma scorePipe_fires (b : Bird) (pipe : Pipe) :
  fires b pipe = true ->
  scorePipe b pipe =
  (mkPipe (pipe_x pipe) (topHeight pipe) (bottomHeight pipe) (pipe_id pipe) true,
   [ScorePlusOne]).
Proof. intro F. unfold scorePipe. unfold fires in F. now rewrite F. Qed.

Lemma scorePipe_quiet (b : Bird) (pipe : Pipe) :
  fires b pipe = false -> scorePipe b pipe = (pipe, []).
Proof. intro F. unfold scorePipe. unfold fires in F. now rewrite F. Qed.

Lemma markPassed_fields (b : Bird) (pipe : Pipe) :
  pipe_x (markPassed b pipe) = pipe_x pipe /\
  topHeight (markPassed b pipe) = topHeight pipe /\
  bottomHeight (markPassed b pipe) = bottomHeight pipe /\
  pipe_id (markPassed b pipe) = pipe_id pipe /\
  passed (markPassed b pipe) = passed pipe || fires b pipe.
Proof.
  unfold markPassed. destruct (fires b pipe) eqn:F.
  - rewrite (scorePipe_fires b pipe F). cbn. now rewrite orb_true_r.
  - rewrite (scorePipe_quiet b pipe F). cbn. now rewrite orb_false_r.
Qed.

Lemma countScore_scorePipe (b : Bird) (pipe : Pipe) :
  countScore (snd (scorePipe b pipe)) = if fires b pipe then 1%Z else 0%Z.
Proof.
  destruct (fires b pipe) eqn:F.
  - now rewrite (scorePipe_fires b pipe F).
  - now rewrite (scorePipe_quiet b pipe F).
Qed.

Lemma hitsPipe_markPassed (b : Bird) (pipe : Pipe) :
  hitsPipe b (markPassed b pipe) = hitsPipe b pipe.
Proof.
  destruct (markPassed_fields b pipe) as [Hx [Ht [Hb _]]].
  unfold hitsPipe. now rewrite Hx, Ht, Hb.
Qed.

Lemma checkPipe_eq (b : Bird) (pipe : Pipe) :
  checkPipe b pipe =
  (markPassed b pipe, snd (scorePipe b pipe) ++ collidePipe b (markPassed b pipe)).
Proof.
  unfold checkPipe, markPassed. now destruct (scorePipe b pipe).
Qed.

Lemma forEachPipe_pipes (b : Bird) (ps : list Pipe) :
  fst (forEachPipe b ps) = map (markPassed b) ps.
Proof.
  induction ps as [|p ps IH]; [reflexivity|].
  simpl. rewrite checkPipe_eq.
  destruct (forEachPipe b ps). simpl in *. now rewrite IH.
Qed.

Lemma forEachPipe_score (b : Bird) (ps : list Pipe) :
  countScore (snd (forEachPipe b ps)) = countFires b ps.
Proof.
  unfold countFires.
  induction ps as [|p ps IH]; [reflexivity|].
  simpl. rewrite checkPipe_eq.
  destruct (forEachPipe b ps) as [ps' us']. cbn [snd] in *.
  rewrite !countScore_app, IH, countScore_scorePipe.
  assert (C : countScore (collidePipe b (markPassed b p)) = 0%Z).
  { unfold collidePipe. now destruct (hitsPipe _ _). }
  rewrite C. destruct (fires b p); simpl length; lia.
Qed.

Lemma forEachPipe_gameOver (b : Bird) (ps : list Pipe) :
  anyGameOver (snd (forEachPipe b ps)) = existsb (hitsPipe b) ps.
Proof.
  induction ps as [|p ps IH]; [reflexivity|].
  simpl. rewrite checkPipe_eq.
  destruct (forEachPipe b ps) as [ps' us']. cbn [snd] in *.
  rewrite !anyGameOver_app, IH.
  assert (S : anyGameOver (snd (scorePipe b p)) = false).
  { unfold scorePipe. now destruct (_ && _). }
  rewrite S. unfold collidePipe. rewrite hitsPipe_markPassed.
  now destruct (hitsPipe b p).
Qed.

(** The tick of a running game, in terms of the pieces above. *)
Lemma tick_running_fields (r : Q) (now : Z) (s : State) :
  running s = true ->
  bird (tick r now s) = fst (birdUpdater (bird s)) /\
  pipes (tick r now s) = map (markPassed (bird s)) (advancePipes r now (pipes s)) /\
  gameStarted (tick r now s) = true /\
  gameOver (tick r now s) =
    anyGameOver (snd (birdUpdater (bird s))) ||
    existsb (hitsPipe (bird s)) (advancePipes r now (pipes s)) /\
  score (tick r now s) =
    (score s + countFires (bird s) (advancePipes r now (pipes s)))%Z.
Proof.
  intro R. rewrite (tick_running r now s R). unfold pipesUpdater.
  cbn [bird pipes gameStarted gameOver score].
  now rewrite forEachPipe_pipes, forEachPipe_score, forEachPipe_gameOver.
Qed.

(** * Invariants of reachable states *)

Lemma jump_fields (s : State) :
  bird_x (bird (jump s)) = bird_x (bird s) /\
  bird_y (bird (jump s)) = bird_y (bird s) /\
  pipes (jump s) = pipes s /\
  score (jump s) = score s.
Proof.
  unfold jump. destruct (gameStarted s), (gameOver s); cbn; auto.
Qed.

Lemma birdUpdater_x (prev : Bird) :
  bird_x (fst (birdUpdater prev)) = bird_x prev.
Proof.
  unfold birdUpdater. destruct (_ >? _); [|destruct (_ <? _)]; reflexivity.
Qed.

Lemma birdUpdater_y_nonneg (prev : Bird) :
  0 <= bird_y prev -> 0 <= bird_y (fst (birdUpdater prev)).
Proof.
  intro H. unfold birdUpdater.
  destruct (_ >? _); [exact H|].
  destruct (_ <? _) eqn:C; cbn [fst bird_y].
  - apply Qle_refl.
  - now apply Qltb_false in C.
Qed.

Lemma bird_x_constant (s : State) : reachable s -> bird_x (bird s) = 100.
Proof.
  revert s. apply reachable_induction; [reflexivity|].
  intros s e _ _ IH. destruct e as [| |r now]; simpl step.
  - destruct (jump_fields s) as [-> _]. exact IH.
  - reflexivity.
  - destruct (running s) eqn:R.
    + destruct (tick_running_fields r now s R) as [-> _].
      now rewrite birdUpdater_x.
    + now rewrite tick_not_running.
Qed.

Lemma bird_y_nonneg (s : State) : reachable s -> 0 <= bird_y (bird s).
Proof.
  revert s. apply reachable_induction; [discriminate|].
  intros s e _ _ IH. destruct e as [| |r now]; simpl step.
  - destruct (jump_fields s) as [_ [-> _]]. exact IH.
  - discriminate.
  - destruct (running s) eqn:R.
    + destruct (tick_running_fields r now s R) as [-> _].
      now apply birdUpdater_y_nonneg.
    + now rewrite tick_not_running.
Qed.

(** C9.  The bird's position is never negative in a reachable state.  On a
    tick whose integrated position is negative the bird is put at position 0
    with velocity 0; the bird updater queues no game over for it, so the
    game ends on that tick only if a pipe is hit. *)
Theorem ceiling_clamp :
  (forall s, reachable s -> 0 <= bird_y (bird s)) /\
  (forall r now s,
     running s = true ->
     bird_y (bird s) + velocity (bird s) < 0 ->
     bird (tick r now s) = mkBird (bird_x (bird s)) 0 0 /\
     snd (birdUpdater (bird s)) = [] /\
     gameOver (tick r now s) =
       existsb (hitsPipe (bird s)) (advancePipes r now (pipes s))).
Proof.
  split; [exact bird_y_nonneg|].
  intros r now s R C.
  destruct (tick_running_fields r now s R) as [Hb [_ [_ [Ho _]]]].
  rewrite Hb, Ho, (birdUpdater_ceiling (bird s) C). repeat split.
Qed.

Lemma ceiling_clamp_witness :
  0 <= bird_y (bird (climb 31)) /\
  bird (tick 0.5 0%Z (climb 31)) = mkBird 100 0 0 /\
  gameOver (tick 0.5 0%Z (climb 31)) = false.
Proof.
  destruct ceiling_clamp as [Hy Hc]. split.
  - apply Hy, reachable_climb.
  - destruct (Hc 0.5 0%Z (climb 31)) as [Hb [_ Ho]].
    + vm_compute. reflexivity.
    + vm_compute. reflexivity.
    + split; [rewrite Hb | rewrite Ho]; vm_compute; reflexivity.
Defined.

(** Geometry of the pipes. *)

Lemma generatePipe_ok (r : Q) (now : Z) (x : Q) :
  0 <= r -> r < 1 -> pipeOK (generatePipe r now x).
Proof.
  intros H0 H1. unfold pipeOK, generatePipe.
  cbn [topHeight bottomHeight].
  unfold maxGapTop, minGapTop, gameHeight, GROUND_HEIGHT, PIPE_GAP.
  repeat split.
  - ring.
  - lra.
  - lra.
Qed.

Lemma movePipe_ok (p : Pipe) : pipeOK p -> pipeOK (movePipe p).
Proof. exact (fun H => H). Qed.

Lemma markPassed_ok (b : Bird) (p : Pipe) : pipeOK p -> pipeOK (markPassed b p).
Proof.
  destruct (markPassed_fields b p) as [_ [Ht [Hb _]]].
  unfold pipeOK. now rewrite Ht, Hb.
Qed.

Lemma advancePipes_ok (r : Q) (now : Z) (ps : list Pipe) :
  0 <= r -> r < 1 -> Forall pipeOK ps -> Forall pipeOK (advancePipes r now ps).
Proof.
  intros H0 H1 H. unfold advancePipes.
  assert (K : Forall pipeOK (filter onScreen (map movePipe ps))).
  { apply Forall_forall. intros p Hp.
    apply filter_In in Hp. destruct Hp as [Hp _].
    preimage Hp q Hq.
    apply movePipe_ok. rewrite Forall_forall in H. now apply H. }
  destruct (needsPipe _); [|exact K].
  apply Forall_app. split; [exact K|].
  constructor; [|constructor]. now apply generatePipe_ok.
Qed.

Lemma pipes_ok (s : State) : reachable s -> Forall pipeOK (pipes s).
Proof.
  revert s. apply reachable_induction; [constructor|].
  intros s e _ Ve IH. destruct e as [| |r now]; simpl step.
  - destruct (jump_fields s) as [_ [_ [-> _]]]. exact IH.
  - constructor.
  - destruct (running s) eqn:R.
    + destruct (tick_running_fields r now s R) as [_ [-> _]].
      destruct Ve as [H0 H1].
      apply Forall_forall. intros p Hp.
      preimage Hp q Hq.
      apply markPassed_ok.
      pose proof (advancePipes_ok r now (pipes s) H0 H1 IH) as A.
      rewrite Forall_forall in A. now apply A.
    + now rewrite tick_not_running.
Qed.

(** C7.  A pipe generated with [Math.random()] in [0, 1) has
    [topHeight + PIPE_GAP + bottomHeight = gameHeight - GROUND_HEIGHT] and
    its [topHeight] between 50 and [gameHeight - GROUND_HEIGHT - PIPE_GAP -
    50]; so has every pipe of every reachable state. *)
Theorem spawned_pipe_geometry :
  (forall r now x, 0 <= r -> r < 1 ->
     let pipe := generatePipe r now x in
     topHeight pipe + PIPE_GAP + bottomHeight pipe == gameHeight - GROUND_HEIGHT /\
     minGapTop <= topHeight pipe /\
     topHeight pipe <= gameHeight - GROUND_HEIGHT - PIPE_GAP - minGapTop) /\
  (forall s, reachable s -> Forall pipeOK (pipes s)).
Proof.
  split; [|exact pipes_ok].
  intros r now x H0 H1. exact (generatePipe_ok r now x H0 H1).
Qed.

Lemma spawned_pipe_geometry_witness :
  topHeight (generatePipe 0.25 7%Z 800) == 97.5 /\
  bottomHeight (generatePipe 0.25 7%Z 800) == 192.5 /\
  pipeOK (generatePipe 0.25 7%Z 800) /\
  Forall pipeOK (pipes (freeFall 2)).
Proof.
  destruct spawned_pipe_geometry as [Hg Hr].
  split; [reflexivity|]. split; [reflexivity|]. split.
  - apply (Hg 0.25 7%Z 800); [discriminate | reflexivity].
  - apply Hr, reachable_freeFall.
Defined.

(** * Score and passed pipes *)

Lemma countPassed_app (ps qs : list Pipe) :
  countPassed (ps ++ qs) = (countPassed ps + countPassed qs)%Z.
Proof. unfold countPassed. rewrite filter_app, length_app. lia. Qed.

Lemma countPassed_nonneg (ps : list Pipe) : (0 <= countPassed ps)%Z.
Proof. unfold countPassed. lia. Qed.

Lemma countPassed_move (ps : list Pipe) :
  countPassed (map movePipe ps) = countPassed ps.
Proof.
  unfold countPassed. f_equal.
  induction ps as [|p ps IH]; [reflexivity|].
  simpl. destruct (passed p); simpl; now rewrite IH.
Qed.

Lemma countPassed_split (f : Pipe -> bool) (ps : list Pipe) :
  countPassed ps =
  (countPassed (filter f ps) + countPassed (filter (fun p => negb (f p)) ps))%Z.
Proof.
  unfold countPassed.
  assert (N : length (filter passed ps) =
              (length (filter passed (filter f ps)) +
               length (filter passed (filter (fun p => negb (f p)) ps)))%nat).
  { induction ps as [|p ps IH]; [reflexivity|].
    simpl. destruct (f p), (passed p) eqn:E; simpl; rewrite ?E; simpl; lia. }
  lia.
Qed.

Lemma countPassed_markPassed (b : Bird) (ps : list Pipe) :
  countPassed (map (markPassed b) ps) = (countPassed ps + countFires b ps)%Z.
Proof.
  unfold countPassed, countFires.
  assert (N : length (filter passed (map (markPassed b) ps)) =
              (length (filter passed ps) + length (filter (fires b) ps))%nat).
  { induction ps as [|p ps IH]; [reflexivity|].
    simpl. destruct (markPassed_fields b p) as [_ [_ [_ [_ ->]]]].
    destruct (passed p) eqn:E, (fires b p) eqn:F; simpl; try lia.
    unfold fires in F. rewrite E in F. discriminate. }
  lia.
Qed.

Lemma countPassed_advance (r : Q) (now : Z) (ps : list Pipe) :
  countPassed ps =
  (countPassed (advancePipes r now ps) + countPassed (dropped ps))%Z.
Proof.
  rewrite <- (countPassed_move ps) at 1.
  rewrite (countPassed_split onScreen (map movePipe ps)).
  unfold advancePipes, dropped.
  destruct (needsPipe _); [|reflexivity].
  rewrite countPassed_app. cbn. lia.
Qed.

Lemma score_accounting (es : list Event) (s : State) (g : Z) :
  score s = (countPassed (pipes s) + g)%Z ->
  score (run es s) =
  (countPassed (pipes (run es s)) + prunedPassedFrom s g es)%Z.
Proof.
  revert s g. induction es as [|e es IH]; intros s g H; [exact H|].
  simpl. apply IH.
  destruct e as [| |r now]; simpl step; simpl prunedStep.
  - destruct (jump_fields s) as [_ [_ [-> ->]]]. exact H.
  - reflexivity.
  - destruct (running s) eqn:R.
    + destruct (tick_running_fields r now s R) as [_ [-> [_ [_ ->]]]].
      rewrite countPassed_markPassed, H.
      rewrite (countPassed_advance r now (pipes s)) at 1. lia.
    + now rewrite tick_not_running.
Qed.

Lemma prunedPassedFrom_nonneg (es : list Event) (s : State) (g : Z) :
  (0 <= g)%Z -> (0 <= prunedPassedFrom s g es)%Z.
Proof.
  revert s g. induction es as [|e es IH]; intros s g H; [exact H|].
  simpl. apply IH. destruct e; simpl; try lia.
  destruct (running s); [|exact H].
  pose proof (countPassed_nonneg (dropped (pipes s))). lia.
Qed.

Lemma score_monotone (r : Q) (now : Z) (s : State) :
  (score s <= score (tick r now s))%Z.
Proof.
  destruct (running s) eqn:R.
  - destruct (tick_running_fields r now s R) as [_ [_ [_ [_ ->]]]].
    unfold countFires. lia.
  - rewrite tick_not_running by exact R. lia.
Qed.

Lemma valid_zero (now : Z) : validEvent (Tick 0 now).
Proof. split; [discriminate | reflexivity]. Qed.

Lemma valid_hold (n : nat) : Forall validEvent (hold n).
Proof.
  apply Forall_concat, Forall_repeat_intro.
  constructor; [exact I|]. constructor; [apply valid_zero | constructor].
Qed.

Lemma valid_glide (n : nat) : Forall validEvent (glide n).
Proof. apply Forall_repeat_intro, valid_zero. Qed.

Lemma reachable_flight (n : nat) : reachable (run (flight n) initialState).
Proof.
  exists (flight n). split; [|reflexivity].
  constructor; [exact I|].
  apply Forall_app. split; [apply valid_hold|].
  apply Forall_app. split; [apply valid_glide|].
  constructor; [exact I|].
  apply Forall_app. split; [apply valid_glide | apply valid_hold].
Qed.

(** C1, as stated, fails: after 440 frames of flight the first pipe has been
    passed and dropped, the score is 1 and no pipe of the list is passed. *)
Lemma score_exceeds_passed_in_list :
  ~ (forall s, reachable s -> score s = countPassed (pipes s)).
Proof.
  intro H. specialize (H _ (reachable_flight 59)).
  assert (E : (fun s => Z.eqb (score s) (countPassed (pipes s)))
                (run (flight 59) initialState) = false)
    by (vm_compute; reflexivity).
  cbv beta in E. rewrite H, Z.eqb_refl in E. discriminate.
Qed.

(** C1, amended.  In every state reached by a run of events the score is
    the number of passed pipes in the list plus the number of passed pipes
    dropped (once their x is at most -PIPE_WIDTH) since the last reset; so
    the score is at least the number of passed pipes in the list, and no
    tick, dropping pipes or not, decreases it. *)
Theorem score_counts_passed_pipes :
  (forall es,
     let s := run es initialState in
     score s = (countPassed (pipes s) + prunedPassed es)%Z /\
     (0 <= prunedPassed es)%Z /\
     (countPassed (pipes s) <= score s)%Z) /\
  (forall r now s, (score s <= score (tick r now s))%Z).
Proof.
  split; [|exact score_monotone].
  intros es s.
  assert (A : score s = (countPassed (pipes s) + prunedPassed es)%Z)
    by (apply score_accounting; reflexivity).
  assert (B : (0 <= prunedPassed es)%Z)
    by (apply prunedPassedFrom_nonneg; lia).
  repeat split; [exact A | exact B | lia].
Qed.

(** * Moving, dropping and spawning pipes *)

Lemma onScreen_false (p : Pipe) : onScreen p = false <-> pipe_x p <= - PIPE_WIDTH.
Proof. apply Qgtb_false. Qed.

Lemma onScreen_true (p : Pipe) : onScreen p = true <-> - PIPE_WIDTH < pipe_x p.
Proof. apply Qgtb_true. Qed.

Lemma movePipe_x (p : Pipe) : pipe_x (movePipe p) == pipe_x p - PIPE_SPEED * dt.
Proof. unfold movePipe, dt. cbn [pipe_x]. ring. Qed.

Lemma filter_none {A} (f : A -> bool) (l : list A) :
  Forall (fun a => f a = false) l -> filter f l = [].
Proof.
  induction 1 as [|a l Ha _ IH]; [reflexivity|].
  simpl. now rewrite Ha.
Qed.

Lemma keptPipes_rev (ps : list Pipe) :
  rev (keptPipes ps) = keptPipes (rev ps).
Proof. unfold keptPipes. now rewrite <- filter_rev, map_rev. Qed.

Lemma headIsRightmost_kept (l : list Pipe) :
  headIsRightmost l -> headIsRightmost (keptPipes l).
Proof.
  destruct l as [|a before]; [trivial|].
  intro H. cbn [headIsRightmost] in H. rewrite Forall_forall in H.
  unfold keptPipes. cbn [map filter].
  destruct (onScreen (movePipe a)) eqn:E.
  - cbn [headIsRightmost]. apply Forall_forall. intros q Hq.
    apply filter_In in Hq. destruct Hq as [Hq _].
    preimage Hq q0 Hq0.
    specialize (H q0 Hq0). cbn [movePipe pipe_x]. lra.
  - rewrite filter_none; [exact I|].
    apply Forall_forall. intros q Hq.
    preimage Hq q0 Hq0.
    specialize (H q0 Hq0).
    apply onScreen_false in E. apply onScreen_false.
    cbn [movePipe pipe_x] in *. lra.
Qed.

Lemma inField_kept (ps : list Pipe) : inField ps -> inField (keptPipes ps).
Proof.
  unfold inField. rewrite !Forall_forall. intros H q Hq.
  apply filter_In in Hq. destruct Hq as [Hq _].
  preimage Hq q0 Hq0.
  specialize (H q0 Hq0). cbn [movePipe pipe_x].
  unfold PIPE_SPEED. lra.
Qed.

Lemma advancePipes_ordered (r : Q) (now : Z) (ps : list Pipe) :
  inField ps -> lastIsRightmost ps ->
  inField (advancePipes r now ps) /\ lastIsRightmost (advancePipes r now ps).
Proof.
  intros F L. unfold advancePipes. fold (keptPipes ps).
  pose proof (inField_kept ps F) as FK.
  assert (LK : lastIsRightmost (keptPipes ps)).
  { unfold lastIsRightmost. rewrite keptPipes_rev.
    now apply headIsRightmost_kept. }
  destruct (needsPipe (keptPipes ps)); [|now split].
  split.
  - apply Forall_app. split; [exact FK|].
    constructor; [|constructor]. cbn. apply Qle_refl.
  - unfold lastIsRightmost. rewrite rev_app_distr. cbn [rev app headIsRightmost].
    apply Forall_rev. exact FK.
Qed.

Lemma markPassed_ordered (b : Bird) (ps : list Pipe) :
  inField ps -> lastIsRightmost ps ->
  inField (map (markPassed b) ps) /\ lastIsRightmost (map (markPassed b) ps).
Proof.
  assert (X : forall p, pipe_x (markPassed b p) = pipe_x p)
    by (intro p; apply markPassed_fields).
  intros F L. split.
  - unfold inField in *. rewrite Forall_forall in *. intros q Hq.
    preimage Hq q0 Hq0.
    rewrite X. now apply F.
  - unfold lastIsRightmost in *. rewrite <- map_rev.
    destruct (rev ps) as [|a before]; [exact I|].
    cbn [map headIsRightmost] in *. rewrite Forall_forall in *. intros q Hq.
    preimage Hq q0 Hq0.
    rewrite !X. now apply L.
Qed.

Lemma pipes_ordered (s : State) :
  reachable s -> inField (pipes s) /\ lastIsRightmost (pipes s).
Proof.
  revert s. apply reachable_induction.
  - split; [constructor | exact I].
  - intros s e _ _ [F L]. destruct e as [| |r now]; simpl step.
    + destruct (jump_fields s) as [_ [_ [-> _]]]. now split.
    + split; [constructor | exact I].
    + destruct (running s) eqn:R.
      * destruct (tick_running_fields r now s R) as [_ [-> _]].
        apply markPassed_ordered; now apply advancePipes_ordered.
      * rewrite tick_not_running by exact R. now split.
Qed.

Lemma needsPipe_spawnCondition (ps : list Pipe) :
  lastIsRightmost ps -> (needsPipe ps = true <-> spawnCondition ps).
Proof.
  unfold lastIsRightmost, needsPipe, spawnCondition. intro L.
  destruct (rev ps) as [|a before] eqn:E.
  - split; [intros _; left | reflexivity].
    rewrite <- (rev_involutive ps), E. reflexivity.
  - cbn [headIsRightmost] in L. rewrite Forall_forall in L.
    assert (M : forall q, In q ps <-> q = a \/ In q before).
    { intro q. rewrite (in_rev ps q), E. cbn. intuition congruence. }
    rewrite Qltb_true. split.
    + intro H. right. exists a. split; [|exact H].
      split; [apply M; now left|].
      intros q Hq. apply M in Hq. destruct Hq as [-> | Hq].
      * apply Qle_refl.
      * now apply L.
    + intros [-> | [p [[_ Hmax] Hp]]]; [discriminate|].
      assert (Ha : In a ps) by (apply M; now left).
      specialize (Hmax a Ha). unfold spawnSpacing in Hp. lra.
Qed.

Lemma markPassed_generated (s : State) (r : Q) (now : Z) :
  reachable s ->
  markPassed (bird s) (generatePipe r now gameWidth) = generatePipe r now gameWidth.
Proof.
  intro H. unfold markPassed. rewrite scorePipe_quiet; [reflexivity|].
  unfold fires. rewrite (bird_x_constant s H). reflexivity.
Qed.

(** C8.  On a tick of a running game every pipe moves left by
    [PIPE_SPEED * dt], the pipes whose new x is at most [-PIPE_WIDTH] are
    dropped, and one pipe with [passed = false] is appended at
    [x = gameWidth] exactly when no pipe is left or the rightmost one is left
    of [gameWidth - 300]; otherwise none is. *)
Theorem obstacle_field_advance (r : Q) (now : Z) (s : State) :
  reachable s -> running s = true ->
  let kept := filter onScreen (map movePipe (pipes s)) in
  let spawned := generatePipe r now gameWidth in
  (forall p, pipe_x (movePipe p) == pipe_x p - PIPE_SPEED * dt) /\
  (forall p, onScreen p = false <-> pipe_x p <= - PIPE_WIDTH) /\
  (forall p, pipe_x (markPassed (bird s) p) = pipe_x p) /\
  pipe_x spawned = gameWidth /\ passed spawned = false /\
  (spawnCondition kept ->
     pipes (tick r now s) = map (markPassed (bird s)) kept ++ [spawned]) /\
  (~ spawnCondition kept ->
     pipes (tick r now s) = map (markPassed (bird s)) kept).
Proof.
  intros H R kept spawned.
  split; [exact movePipe_x|].
  split; [exact onScreen_false|].
  split; [intro p; apply markPassed_fields|].
  split; [reflexivity|]. split; [reflexivity|].
  destruct (tick_running_fields r now s R) as [_ [-> _]].
  unfold advancePipes. fold kept. fold spawned.
  assert (L : lastIsRightmost kept).
  { unfold kept, lastIsRightmost. fold (keptPipes (pipes s)).
    rewrite keptPipes_rev. apply headIsRightmost_kept.
    apply (pipes_ordered s H). }
  pose proof (needsPipe_spawnCondition kept L) as N.
  destruct (needsPipe kept) eqn:E; split; intro C.
  - rewrite map_app. cbn [map]. unfold spawned.
    now rewrite (markPassed_generated s r now H).
  - exfalso. apply C, N. reflexivity.
  - apply N in C. discriminate.
  - reflexivity.
Qed.

Lemma obstacle_field_advance_witness :
  reachable (freeFall 0) /\ running (freeFall 0) = true /\
  pipes (freeFall 0) = [] /\
  pipes (tick 0.5 0%Z (freeFall 0)) = [generatePipe 0.5 0%Z gameWidth] /\
  map pipe_x (pipes (freeFall 1)) = [800] /\
  map pipe_x (pipes (tick 0.5 0%Z (freeFall 1))) = [800 - 2].
Proof.
  split; [apply reachable_freeFall|]. split; [reflexivity|].
  split; [reflexivity|]. split; [|split; [reflexivity|]].
  - destruct (obstacle_field_advance 0.5 0%Z (freeFall 0)
                (reachable_freeFall 0) eq_refl)
      as [_ [_ [_ [_ [_ [Hyes _]]]]]].
    rewrite Hyes; [reflexivity | now left].
  - destruct (obstacle_field_advance 0.5 0%Z (freeFall 1)
                (reachable_freeFall 1) eq_refl)
      as [_ [_ [_ [_ [_ [_ Hno]]]]]].
    rewrite Hno; [reflexivity|].
    intros [C | [p [[Hin _] Hp]]]; [discriminate|].
    destruct Hin as [<- | []]. vm_compute in Hp. discriminate.
Defined.

(** * Scoring, pipe by pipe *)

Lemma filter_map_swap {A B} (f : B -> bool) (g : A -> B) (l : list A) :
  filter f (map g l) = map g (filter (fun a => f (g a)) l).
Proof.
  induction l as [|a l IH]; [reflexivity|].
  simpl. destruct (f (g a)); simpl; now rewrite IH.
Qed.

Lemma countFires_sum (b : Bird) (ps : list Pipe) :
  countFires b ps =
  sumZ (map (fun p => countScore (snd (scorePipe b p))) ps).
Proof.
  unfold countFires.
  induction ps as [|p ps IH]; [reflexivity|].
  cbn [map sumZ fold_right filter]. fold (sumZ (map (fun p => countScore (snd (scorePipe b p))) ps)).
  rewrite <- IH, countScore_scorePipe.
  destruct (fires b p); cbn [length]; lia.
Qed.

Lemma countFires_app (b : Bird) (ps qs : list Pipe) :
  countFires b (ps ++ qs) = (countFires b ps + countFires b qs)%Z.
Proof. unfold countFires. rewrite filter_app, length_app. lia. Qed.

Lemma pipeFrames_passed (bs : list Bird) (pipe : Pipe) :
  passed pipe = true -> Forall (fun d => d = 0%Z) (pipeFrames bs pipe).
Proof.
  revert pipe. induction bs as [|b bs IH]; intros pipe P; [constructor|].
  cbn [pipeFrames]. unfold pipeFrame.
  rewrite scorePipe_quiet.
  - constructor; [reflexivity|]. now apply IH.
  - unfold fires. cbn [movePipe passed]. now rewrite P.
Qed.

Lemma nth_all_zero (l : list Z) (k : nat) :
  Forall (fun d => d = 0%Z) l -> nth k l 0%Z = 0%Z.
Proof.
  intro H. revert k. induction H as [|d l Hd _ IH]; intros [|k]; cbn; auto.
Qed.

Lemma sumZ_all_zero (l : list Z) :
  Forall (fun d => d = 0%Z) l -> sumZ l = 0%Z.
Proof.
  induction 1 as [|d l Hd _ IH]; [reflexivity|].
  cbn [sumZ fold_right]. fold (sumZ l). lia.
Qed.

Lemma fires_cleared (b : Bird) (bs : list Bird) (pipe : Pipe) :
  passed pipe = false ->
  (fires b (movePipe pipe) = true <-> clearedAt (b :: bs) pipe 0).
Proof.
  intro P. unfold fires, clearedAt. cbn [movePipe passed pipe_x nth_error].
  rewrite P. cbn [negb andb]. rewrite Qgtb_true.
  change (inject_Z (Z.of_nat 1)) with 1.
  split.
  - intro H. exists b. split; [reflexivity|]. lra.
  - intros [b' [E H]]. inversion E; subst b'. lra.
Qed.

Lemma clearedAt_shift (b : Bird) (bs : list Bird) (pipe : Pipe) (k : nat) :
  clearedAt (b :: bs) pipe (S k) <-> clearedAt bs (movePipe pipe) k.
Proof.
  unfold clearedAt. cbn [nth_error movePipe pipe_x].
  assert (E : inject_Z (Z.of_nat (S (S k))) == inject_Z (Z.of_nat (S k)) + 1).
  { rewrite (Nat2Z.inj_succ (S k)). unfold Z.succ. now rewrite inject_Z_plus. }
  split; intros [b' [N H]]; exists b'; (split; [exact N|]);
    rewrite E in *; lra.
Qed.

Lemma pipeFrames_first (bs : list Bird) (pipe : Pipe) (k : nat) :
  passed pipe = false ->
  (nth k (pipeFrames bs pipe) 0%Z = 1%Z <-> firstClearedAt bs pipe k) /\
  (nth k (pipeFrames bs pipe) 0%Z = 0%Z \/ nth k (pipeFrames bs pipe) 0%Z = 1%Z).
Proof.
  revert pipe k. induction bs as [|b bs IH]; intros pipe k P.
  - cbn [pipeFrames]. split; [|left; now destruct k].
    split; [destruct k; discriminate|].
    intros [[b [N _]] _]. destruct k; discriminate.
  - cbn [pipeFrames]. unfold pipeFrame.
    pose proof (fires_cleared b bs pipe P) as F0.
    destruct (fires b (movePipe pipe)) eqn:F.
    + rewrite (scorePipe_fires _ _ F).
      change (countScore [ScorePlusOne]) with 1%Z.
      set (pipe' := mkPipe _ _ _ _ true).
      assert (Z0 : Forall (fun d => d = 0%Z) (pipeFrames bs pipe'))
        by (apply pipeFrames_passed; reflexivity).
      destruct k as [|k]; cbn [nth].
      * split; [|now right]. split; [|reflexivity].
        intros _. split; [now apply F0|]. intros j Hj. lia.
      * rewrite (nth_all_zero _ k Z0). split; [|now left].
        split; [discriminate|].
        intros [_ H]. exfalso. apply (H 0%nat); [lia | now apply F0].
    + rewrite (scorePipe_quiet _ _ F).
      change (countScore []) with 0%Z.
      assert (P' : passed (movePipe pipe) = false) by exact P.
      destruct k as [|k]; cbn [nth].
      * split; [|now left]. split; [discriminate|].
        intros [C _]. apply F0 in C. discriminate.
      * destruct (IH (movePipe pipe) k P') as [IH1 IH2].
        split; [|exact IH2]. rewrite IH1. unfold firstClearedAt.
        rewrite clearedAt_shift. split; intros [C H]; (split; [exact C|]).
        -- intros [|j] Hj.
           ++ intro C0. apply F0 in C0. discriminate.
           ++ rewrite clearedAt_shift. apply H. lia.
        -- intros j Hj. rewrite <- clearedAt_shift. apply H. lia.
Qed.

Lemma pipeFrames_total (bs : list Bird) (pipe : Pipe) :
  (0 <= sumZ (pipeFrames bs pipe) <= 1)%Z.
Proof.
  revert pipe. induction bs as [|b bs IH]; intro pipe; [cbn; lia|].
  cbn [pipeFrames]. unfold pipeFrame.
  destruct (fires b (movePipe pipe)) eqn:F.
  - rewrite (scorePipe_fires _ _ F).
    change (countScore [ScorePlusOne]) with 1%Z.
    cbn [sumZ fold_right].
    match goal with |- context [fold_right Z.add 0%Z ?l] =>
      fold (sumZ l); rewrite (sumZ_all_zero l) end.
    + lia.
    + apply pipeFrames_passed. reflexivity.
  - rewrite (scorePipe_quiet _ _ F).
    change (countScore []) with 0%Z.
    cbn [sumZ fold_right]. fold (sumZ (pipeFrames bs (movePipe pipe))).
    specialize (IH (movePipe pipe)). lia.
Qed.

Lemma cleared_pipes_passed (s : State) :
  reachable s ->
  forall p, In p (pipes s) ->
    pipe_x p + PIPE_WIDTH < bird_x (bird s) -> passed p = true.
Proof.
  revert s.
  apply (reachable_induction
           (fun s => forall p, In p (pipes s) ->
                     pipe_x p + PIPE_WIDTH < bird_x (bird s) -> passed p = true)).
  - intros p [].
  - intros s e _ _ IH. destruct e as [| |r now]; simpl step.
    + destruct (jump_fields s) as [-> [_ [-> _]]]. exact IH.
    + intros p [].
    + destruct (running s) eqn:R; [|now rewrite tick_not_running].
      destruct (tick_running_fields r now s R) as [-> [-> _]].
      rewrite birdUpdater_x. intros p' Hp' C.
      preimage Hp' p Hp.
      destruct (markPassed_fields (bird s) p) as [X [_ [_ [_ P]]]].
      rewrite X in C. rewrite P. unfold fires.
      apply Qgtb_true in C. rewrite C. now destruct (passed p).
Qed.

Lemma dropped_pipes_passed (s : State) :
  reachable s -> Forall (fun p => passed p = true) (dropped (pipes s)).
Proof.
  intro H. apply Forall_forall. intros p Hp.
  unfold dropped in Hp. apply filter_In in Hp. destruct Hp as [Hp Off].
  preimage Hp q Hq.
  apply negb_true_iff, onScreen_false in Off.
  change (passed (movePipe q)) with (passed q).
  apply (cleared_pipes_passed s H q Hq).
  rewrite (bird_x_constant s H).
  cbn [movePipe pipe_x] in Off. unfold PIPE_SPEED, PIPE_WIDTH in *. lra.
Qed.

(** C6.  The scoring branch fires once per pipe.  On a tick of a running
    game the score grows by the sum of the increments of the pipes that stay
    in the list, each pipe being replaced by its next frame.  Along the
    frames of a pipe that starts with [passed = false], the increment is 1 in
    the first frame in which the bird's left edge is greater than
    [pipe.x + PIPE_WIDTH], where [passed] becomes true, and 0 in every other
    frame; a pipe with [passed = true] never increments the score, and a
    pipe is dropped from the list only with [passed = true]. *)
Theorem score_fires_once :
  (forall r now s,
     reachable s -> running s = true ->
     let b := bird s in
     let staying := filter (fun q => onScreen (movePipe q)) (pipes s) in
     let spawned :=
       if needsPipe (keptPipes (pipes s)) then [generatePipe r now gameWidth]
       else [] in
     pipes (tick r now s) =
       map (fun q => fst (pipeFrame b q)) staying ++ spawned /\
     score (tick r now s) =
       (score s +
        sumZ (map (fun q => countScore (snd (pipeFrame b q))) staying))%Z) /\
  (forall bs pipe,
     passed pipe = false ->
     (forall k, nth k (pipeFrames bs pipe) 0%Z = 1%Z <->
                firstClearedAt bs pipe k) /\
     (forall k, nth k (pipeFrames bs pipe) 0%Z = 0%Z \/
                nth k (pipeFrames bs pipe) 0%Z = 1%Z) /\
     (sumZ (pipeFrames bs pipe) <= 1)%Z) /\
  (forall bs pipe,
     passed pipe = true -> Forall (fun d => d = 0%Z) (pipeFrames bs pipe)) /\
  (forall b pipe,
     countScore (snd (pipeFrame b pipe)) = 1%Z ->
     passed (fst (pipeFrame b pipe)) = true) /\
  (forall s,
     reachable s -> Forall (fun p => passed p = true) (dropped (pipes s))).
Proof.
  split; [|split; [|split; [|split; [|exact dropped_pipes_passed]]]].
  - intros r now s H R b staying spawned.
    destruct (tick_running_fields r now s R) as [_ [-> [_ [_ ->]]]].
    unfold advancePipes. fold (keptPipes (pipes s)).
    assert (K : keptPipes (pipes s) = map movePipe staying)
      by apply filter_map_swap.
    assert (S : (if needsPipe (keptPipes (pipes s))
                 then keptPipes (pipes s) ++ [generatePipe r now gameWidth]
                 else keptPipes (pipes s)) = map movePipe staying ++ spawned).
    { unfold spawned. destruct (needsPipe _); rewrite K;
        [reflexivity | now rewrite app_nil_r]. }
    rewrite S, map_app, countFires_app, map_map.
    assert (N : map (markPassed (bird s)) spawned = spawned).
    { unfold spawned. destruct (needsPipe _); [|reflexivity].
      cbn [map]. now rewrite (markPassed_generated s r now H). }
    assert (Z0 : countFires (bird s) spawned = 0%Z).
    { unfold spawned. destruct (needsPipe _); [|reflexivity].
      unfold countFires. cbn [filter]. unfold fires at 1.
      rewrite (bird_x_constant s H). reflexivity. }
    rewrite N, Z0, countFires_sum, map_map. split; [reflexivity|].
    fold b. unfold pipeFrame. lia.
  - intros bs pipe P. split; [|split].
    + intro k. apply (pipeFrames_first bs pipe k P).
    + intro k. apply (pipeFrames_first bs pipe k P).
    + apply pipeFrames_total.
  - exact pipeFrames_passed.
  - intros b pipe. unfold pipeFrame. rewrite countScore_scorePipe.
    destruct (fires b (movePipe pipe)) eqn:F; [|discriminate].
    intros _. now rewrite (scorePipe_fires _ _ F).
Qed.

Lemma score_fires_once_witness :
  score beforeClearing = 0%Z /\
  score (tick 0 0%Z beforeClearing) = 1%Z /\
  score (tick 0 0%Z (tick 0 0%Z beforeClearing)) = 1%Z /\
  pipeFrames [initialBird; initialBird; initialBird; initialBird]
             (mkPipe 42 50 240 0%Z false) = [0; 1; 0; 0]%Z /\
  firstClearedAt [initialBird; initialBird; initialBird; initialBird]
                 (mkPipe 42 50 240 0%Z false) 1 /\
  pipeFrames [initialBird; initialBird]
             (mkPipe 20 50 240 0%Z true) = [0; 0]%Z /\
  passed (fst (pipeFrame initialBird (mkPipe 40 50 240 0%Z false))) = true /\
  Forall (fun p => passed p = true) (dropped (pipes beforeClearing)).
Proof.
  destruct score_fires_once as [Htick [Hfirst [Hpassed [Hset Hdrop]]]].
  assert (R0 : reachable beforeClearing) by apply (reachable_flight 0).
  assert (R1 : reachable (tick 0 0%Z beforeClearing))
    by (apply reachable_tick; [exact R0 | discriminate | reflexivity]).
  assert (G0 : running beforeClearing = true) by (vm_compute; reflexivity).
  assert (G1 : running (tick 0 0%Z beforeClearing) = true)
    by (vm_compute; reflexivity).
  destruct (Htick 0 0%Z _ R0 G0) as [_ S0].
  destruct (Htick 0 0%Z _ R1 G1) as [_ S1].
  destruct (Hfirst [initialBird; initialBird; initialBird; initialBird]
              (mkPipe 42 50 240 0%Z false) eq_refl) as [F1 _].
  split; [vm_compute; reflexivity|].
  split; [apply (eq_trans S0); vm_compute; reflexivity|].
  split; [apply (eq_trans S1); vm_compute; reflexivity|].
  split; [vm_compute; reflexivity|].
  split; [apply F1; vm_compute; reflexivity|].
  split.
  - pose proof (Hpassed [initialBird; initialBird]
                  (mkPipe 20 50 240 0%Z true) eq_refl) as Z0.
    vm_compute. reflexivity.
  - split; [|exact (Hdrop _ R0)].
    apply Hset. vm_compute. reflexivity.
Defined.

(** * The closure of the interval callback *)

Lemma scorePipe_bird_ext (b1 b2 : Bird) (pipe : Pipe) :
  bird_x b1 == bird_x b2 -> scorePipe b1 pipe = scorePipe b2 pipe.
Proof.
  intro X. unfold scorePipe, Qgtb.
  now rewrite (Qltb_ext _ (pipe_x pipe + PIPE_WIDTH) (bird_x b1) (bird_x b2)
                 (Qeq_refl _) X).
Qed.

Lemma hitsPipe_bird_ext (b1 b2 : Bird) (pipe : Pipe) :
  bird_x b1 == bird_x b2 -> bird_y b1 == bird_y b2 ->
  hitsPipe b1 pipe = hitsPipe b2 pipe.
Proof.
  intros X Y. unfold hitsPipe, Qgtb.
  assert (XS : bird_x b1 + BIRD_SIZE == bird_x b2 + BIRD_SIZE) by now rewrite X.
  assert (YS : bird_y b1 + BIRD_SIZE == bird_y b2 + BIRD_SIZE) by now rewrite Y.
  rewrite (Qltb_ext _ _ _ _ (Qeq_refl (pipe_x pipe)) XS).
  rewrite (Qltb_ext _ _ _ _ X (Qeq_refl (pipe_x pipe + PIPE_WIDTH))).
  rewrite (Qltb_ext _ _ _ _ Y (Qeq_refl (topHeight pipe))).
  now rewrite (Qltb_ext _ _ _ _
                 (Qeq_refl (gameHeight - GROUND_HEIGHT - bottomHeight pipe)) YS).
Qed.

Lemma forEachPipe_bird_ext (b1 b2 : Bird) (ps : list Pipe) :
  bird_x b1 == bird_x b2 -> bird_y b1 == bird_y b2 ->
  forEachPipe b1 ps = forEachPipe b2 ps.
Proof.
  intros X Y. induction ps as [|p ps IH]; [reflexivity|].
  cbn [forEachPipe]. unfold checkPipe, collidePipe.
  rewrite (scorePipe_bird_ext b1 b2 p X), IH.
  destruct (scorePipe b2 p) as [p' us].
  now rewrite (hitsPipe_bird_ext b1 b2 p' X Y).
Qed.

Lemma gameLoop_bird_ext (b1 b2 : Bird) (r : Q) (now : Z) (s : State) :
  bird_x b1 == bird_x b2 -> bird_y b1 == bird_y b2 ->
  gameLoop b1 r now s = gameLoop b2 r now s.
Proof.
  intros X Y. unfold gameLoop, pipesUpdater.
  now rewrite (forEachPipe_bird_ext b1 b2 _ X Y).
Qed.

Lemma sameDeps_spec (s s' : State) :
  sameDeps s s' = true ->
  running s = running s' /\
  bird_x (bird s) == bird_x (bird s') /\
  bird_y (bird s) == bird_y (bird s').
Proof.
  unfold sameDeps, running. rewrite !andb_true_iff.
  intros [[[A B] C] D].
  apply eqb_prop in A, B. apply Qeq_bool_iff in C, D.
  rewrite A, B. now repeat split.
Qed.

Lemma effect_fresh (s : State) : closureFresh (mkComponent s (effect s)).
Proof.
  unfold closureFresh, effect, running. cbn [state interval].
  destruct (gameStarted s), (gameOver s); cbn; try reflexivity.
  exists (bird s). repeat split; reflexivity.
Qed.

Lemma render_fresh (c : Component) (s' : State) :
  closureFresh c -> closureFresh (render c s').
Proof.
  intro F. unfold render.
  destruct (sameDeps (state c) s') eqn:D; [|apply effect_fresh].
  destruct (sameDeps_spec _ _ D) as [R [X Y]].
  unfold closureFresh in *. cbn [state interval]. rewrite <- R.
  destruct (running (state c)); [|exact F].
  destruct F as [b [E [Xb Yb]]]. exists b.
  split; [exact E|]. split; [now rewrite Xb | now rewrite Yb].
Qed.

Lemma fire_tick (r : Q) (now : Z) (c : Component) :
  closureFresh c -> state (fire r now c) = tick r now (state c).
Proof.
  unfold closureFresh, fire, tick. intro F.
  destruct (running (state c)).
  - destruct F as [b [-> [X Y]]]. cbn [render state].
    now apply gameLoop_bird_ext.
  - now rewrite F.
Qed.

Lemma componentStep_fresh (c : Component) (e : Event) :
  closureFresh c -> closureFresh (componentStep c e).
Proof.
  intro F. destruct e as [| |r now]; cbn [componentStep];
    try now apply render_fresh.
  unfold fire. destruct (interval c); [now apply render_fresh | exact F].
Qed.

Lemma componentStep_state (c : Component) (e : Event) :
  closureFresh c -> state (componentStep c e) = step (state c) e.
Proof.
  intro F. destruct e as [| |r now]; cbn [componentStep step];
    try reflexivity.
  now apply fire_tick.
Qed.

Lemma componentRun_snoc (es : list Event) (e : Event) :
  componentRun (es ++ [e]) = componentStep (componentRun es) e.
Proof. unfold componentRun. now rewrite fold_left_app. Qed.

(** The component, closure and all, goes through the states of [run]: the
    captured bird is always fresh, which is what lets [tick] hand the state's
    own bird to [gameLoop]. *)
Lemma componentRun_sound (es : list Event) :
  closureFresh (componentRun es) /\
  state (componentRun es) = run es initialState.
Proof.
  induction es as [|e es [F S]] using rev_ind.
  - split; [apply effect_fresh | reflexivity].
  - rewrite componentRun_snoc, run_snoc. split.
    + now apply componentStep_fresh.
    + rewrite <- S. now apply componentStep_state.
Qed.

Lemma valid_diving : Forall validEvent diving.
Proof.
  constructor; [exact I|].
  apply Forall_app. split; [apply valid_hold | apply valid_glide].
Qed.

(** C10.  When the interval fires in a running game, the bird its callback
    captured stands where the bird of the state stood before the tick, and
    the scoring and pipe collision checks of that tick are those computed
    from that bird; the bird the same tick integrates takes no part in them.
    The two differ: in the flight [diving] the bird before the tick is
    inside the gap and the integrated one is not, and the tick does not end
    the game. *)
Theorem checks_use_pre_tick_bird :
  (forall es r now,
     let c := componentRun es in
     let s := state c in
     let s' := state (fire r now c) in
     running s = true ->
     (exists captured,
        interval c = Some captured /\
        bird_x captured == bird_x (bird s) /\
        bird_y captured == bird_y (bird s)) /\
     bird s' = fst (birdUpdater (bird s)) /\
     pipes s' = map (markPassed (bird s)) (advancePipes r now (pipes s)) /\
     score s' = (score s + countFires (bird s) (advancePipes r now (pipes s)))%Z /\
     gameOver s' =
       anyGameOver (snd (birdUpdater (bird s))) ||
       existsb (hitsPipe (bird s)) (advancePipes r now (pipes s))) /\
  (exists es r now,
     Forall validEvent es /\ 0 <= r /\ r < 1 /\
     running (state (componentRun es)) = true /\
     existsb (hitsPipe (bird (state (componentRun es))))
             (advancePipes r now (pipes (state (componentRun es)))) = false /\
     existsb (hitsPipe (bird (state (fire r now (componentRun es)))))
             (advancePipes r now (pipes (state (componentRun es)))) = true /\
     gameOver (state (fire r now (componentRun es))) = false).
Proof.
  split.
  - intros es r now c s s' R.
    destruct (componentRun_sound es) as [F _]. fold c in F.
    split.
    + unfold closureFresh in F. fold s in F. now rewrite R in F.
    + unfold s'. rewrite (fire_tick r now c F). fold s.
      destruct (tick_running_fields r now s R) as [Hb [Hp [_ [Ho Hs]]]].
      now repeat split.
  - exists diving, 0, 0%Z.
    split; [exact valid_diving|].
    split; [discriminate|]. split; [reflexivity|].
    repeat split; vm_compute; reflexivity.
Qed.

Lemma checks_use_pre_tick_bird_witness :
  running (state (componentRun diving)) = true /\
  gameOver (state (fire 0 0%Z (componentRun diving))) =
    anyGameOver (snd (birdUpdater (bird (state (componentRun diving))))) ||
    existsb (hitsPipe (bird (state (componentRun diving))))
            (advancePipes 0 0%Z (pipes (state (componentRun diving)))).
Proof.
  assert (R : running (state (componentRun diving)) = true)
    by (vm_compute; reflexivity).
  split; [exact R|].
  destruct checks_use_pre_tick_bird as [H _].
  destruct (H diving 0 0%Z R) as [_ [_ [_ [_ Ho]]]].
  exact Ho.
Defined.

(** * Further properties of the component *)

(** ** Life cycle *)

Lemma jump_started (s : State) : gameStarted (jump s) = true.
Proof.
  unfold jump. destruct (gameStarted s) eqn:S, (gameOver s); cbn; auto.
Qed.

Lemma idle_initial (s : State) :
  reachable s -> gameStarted s = false -> s = initialState.
Proof.
  revert s.
  apply (reachable_induction
           (fun s => gameStarted s = false -> s = initialState)).
  - reflexivity.
  - intros s e _ _ IH. destruct e as [| |r now]; simpl step; intro H.
    + rewrite jump_started in H. discriminate.
    + reflexivity.
    + destruct (running s) eqn:R.
      * destruct (tick_running_fields r now s R) as [_ [_ [S _]]]. congruence.
      * rewrite tick_not_running in * by exact R. now apply IH.
Qed.

Lemma over_started (s : State) :
  reachable s -> gameOver s = true -> gameStarted s = true.
Proof.
  intros H O. destruct (gameStarted s) eqn:S; [reflexivity|].
  rewrite (idle_initial s H S) in O. discriminate.
Qed.

(** X1.  The start panel is shown only in the initial state: whenever the
    game is not started, the bird is at its start position with velocity 0,
    there is no pipe and the score is 0.  The two panels are never shown
    together. *)
Theorem start_screen_is_initial_state (s : State) :
  reachable s ->
  (startScreen s = true <-> s = initialState) /\
  (startScreen s && gameOverScreen s = false).
Proof.
  intro H. split; [split|].
  - unfold startScreen. rewrite andb_true_iff, negb_true_iff.
    intros [S _]. now apply idle_initial.
  - intros ->. reflexivity.
  - unfold startScreen, gameOverScreen.
    now destruct (gameStarted s), (gameOver s).
Qed.

Lemma start_screen_is_initial_state_witness :
  startScreen (run [Jump; Tick 0.5 0%Z; ResetGame] initialState) = true /\
  run [Jump; Tick 0.5 0%Z; ResetGame] initialState = initialState.
Proof.
  assert (R : reachable (run [Jump; Tick 0.5 0%Z; ResetGame] initialState)).
  { exists [Jump; Tick 0.5 0%Z; ResetGame]. split; [|reflexivity].
    repeat constructor; discriminate. }
  destruct (start_screen_is_initial_state _ R) as [[H _] _].
  assert (S : startScreen (run [Jump; Tick 0.5 0%Z; ResetGame] initialState) = true)
    by (vm_compute; reflexivity).
  split; [exact S | exact (H S)].
Defined.

(** X2.  Game over is final: from a reachable state with [gameOver] set,
    jumps and ticks change nothing; only [resetGame] leaves the state. *)
Theorem game_over_is_final (s : State) (es : list Event) :
  reachable s -> gameOver s = true ->
  forallb (fun e => negb (isResetGame e)) es = true ->
  run es s = s.
Proof.
  intros H O. induction es as [|e es IH]; [reflexivity|].
  cbn [forallb]. rewrite andb_true_iff. intros [E Es].
  assert (S : step s e = s).
  { destruct e as [| |r now]; [| discriminate |]; simpl step.
    - unfold jump. now rewrite (over_started s H O), O.
    - apply tick_not_running. unfold running. now rewrite O, andb_false_r. }
  unfold run in *. cbn [fold_left]. rewrite S. now apply IH.
Qed.

Lemma game_over_is_final_witness :
  gameOver (freeFall 30) = true /\
  run [Jump; Tick 0.5 1%Z; Jump; Tick 0.25 2%Z] (freeFall 30) = freeFall 30.
Proof.
  assert (O : gameOver (freeFall 30) = true) by (vm_compute; reflexivity).
  split; [exact O|].
  apply (game_over_is_final (freeFall 30) _ (reachable_freeFall 30) O).
  reflexivity.
Defined.

Lemma jump_running (s : State) :
  running s = true ->
  jump s =
  mkState (mkBird (bird_x (bird s)) (bird_y (bird s)) JUMP_FORCE)
          (pipes s) true false (score s).
Proof.
  intro R. destruct (running_flags s R) as [S O].
  unfold jump. now rewrite S, O.
Qed.

Lemma jump_jump (s : State) : running s = true -> jump (jump s) = jump s.
Proof.
  intro R. rewrite (jump_running s R). reflexivity.
Qed.

Lemma jumps_after_jump (m : nat) (s : State) :
  running s = true -> run (repeat Jump m) (jump s) = jump s.
Proof.
  intro R. induction m as [|m IH]; [reflexivity|].
  change (run (repeat Jump (S m)) (jump s))
    with (run (repeat Jump m) (jump (jump s))).
  now rewrite (jump_jump s R).
Qed.

(** X3.  Jumps do not add up: in a running game any number of jumps in a
    row leaves the state one jump leaves, with velocity [JUMP_FORCE] and
    position, pipes and score untouched. *)
Theorem jumps_do_not_stack (s : State) (n : nat) :
  running s = true ->
  run (repeat Jump (S n)) s = jump s /\
  velocity (bird (jump s)) = JUMP_FORCE /\
  bird_x (bird (jump s)) = bird_x (bird s) /\
  bird_y (bird (jump s)) = bird_y (bird s) /\
  pipes (jump s) = pipes s /\ score (jump s) = score s /\
  running (jump s) = true.
Proof.
  intro R. split.
  - exact (jumps_after_jump n s R).
  - rewrite (jump_running s R). now repeat split.
Qed.

Lemma jumps_do_not_stack_witness :
  run (repeat Jump 3) (freeFall 2) = jump (freeFall 2) /\
  velocity (bird (jump (freeFall 2))) = JUMP_FORCE.
Proof.
  destruct (jumps_do_not_stack (freeFall 2) 2) as [H [V _]].
  - vm_compute. reflexivity.
  - split; [exact H | exact V].
Defined.

(** ** The bird stays in the field *)

Lemma bird_above_ground (s : State) :
  reachable s -> bird_y (bird s) <= groundLimit.
Proof.
  revert s. apply reachable_induction; [discriminate|].
  intros s e _ _ IH. destruct e as [| |r now]; simpl step.
  - destruct (jump_fields s) as [_ [-> _]]. exact IH.
  - discriminate.
  - destruct (running s) eqn:R; [|now rewrite tick_not_running].
    destruct (tick_running_fields r now s R) as [-> _].
    unfold birdUpdater. fold groundLimit.
    destruct (_ >? _) eqn:G; [exact IH|].
    destruct (_ <? _); cbn [fst bird_y]; [discriminate|].
    now apply Qgtb_false in G.
Qed.

(** X4.  In every reachable state the bird is drawn inside the field: its x
    is 100, its top is at or below the ceiling line 0 and its bottom at or
    above the ground line [gameHeight - GROUND_HEIGHT]. *)
Theorem bird_inside_field (s : State) :
  reachable s ->
  bird_x (bird s) = 100 /\
  0 <= bird_y (bird s) /\
  bird_y (bird s) + BIRD_SIZE <= gameHeight - GROUND_HEIGHT.
Proof.
  intro H. split; [now apply bird_x_constant|].
  split; [now apply bird_y_nonneg|].
  pose proof (bird_above_ground s H) as G.
  unfold groundLimit, gameHeight, GROUND_HEIGHT, BIRD_SIZE in *. lra.
Qed.

Lemma bird_inside_field_witness :
  bird_y (bird (freeFall 30)) == 412.4 /\
  bird_y (bird (freeFall 30)) + BIRD_SIZE <= gameHeight - GROUND_HEIGHT.
Proof.
  split; [vm_compute; reflexivity|].
  apply (bird_inside_field (freeFall 30) (reachable_freeFall 30)).
Defined.

(** ** Velocity *)

Lemma birdUpdater_velocity (prev : Bird) :
  0 <= bird_y prev ->
  JUMP_FORCE <= velocity prev ->
  - (67.2) <= flightEnergy prev ->
  JUMP_FORCE <= velocity (fst (birdUpdater prev)) /\
  - (67.2) <= flightEnergy (fst (birdUpdater prev)).
Proof.
  intros Y V E. unfold birdUpdater.
  destruct (_ >? _); [now split|].
  destruct (_ <? _); cbn [fst].
  - split; vm_compute; discriminate.
  - unfold flightEnergy, JUMP_FORCE, GRAVITY in *. cbn [bird_y velocity].
    split; [lra|].
    assert (Q : 2 * 0.4 * (bird_y prev + velocity prev) -
                (velocity prev + 0.4) * (velocity prev + 0.4 - 0.4) ==
                2 * 0.4 * bird_y prev - velocity prev * (velocity prev - 0.4))
      by ring.
    rewrite Q. exact E.
Qed.

Lemma velocity_energy (s : State) :
  reachable s ->
  JUMP_FORCE <= velocity (bird s) /\ - (67.2) <= flightEnergy (bird s).
Proof.
  revert s. apply reachable_induction.
  - split; vm_compute; discriminate.
  - intros s e Hs _ [V E]. destruct e as [| |r now]; simpl step.
    + pose proof (bird_y_nonneg s Hs) as Y.
      unfold jump. destruct (gameStarted s); cbn [negb]; [|now split].
      destruct (gameOver s); [now split|]. cbn [bird velocity].
      split; [apply Qle_refl|].
      unfold flightEnergy, JUMP_FORCE, GRAVITY. cbn [bird_y velocity]. lra.
    + split; vm_compute; discriminate.
    + destruct (running s) eqn:R; [|now rewrite tick_not_running].
      destruct (tick_running_fields r now s R) as [-> _].
      apply birdUpdater_velocity; auto using bird_y_nonneg.
Qed.

Lemma velocity_at_most_21 (b : Bird) :
  bird_y b <= groundLimit -> - (67.2) <= flightEnergy b -> velocity b <= 21.
Proof.
  unfold flightEnergy, groundLimit, gameHeight, GROUND_HEIGHT, BIRD_SIZE, GRAVITY.
  intros Y E. apply Qnot_lt_le. intro V.
  assert (P : 21 * (21 - 0.4) < velocity b * (velocity b - 0.4)) by nra.
  lra.
Qed.

(** X5.  The velocity of the bird stays between [JUMP_FORCE] and 21 in
    every reachable state, so the clamp of the drawn rotation to [-30, 90]
    never takes effect: the rotation is three times the velocity. *)
Theorem velocity_bounded (s : State) :
  reachable s ->
  JUMP_FORCE <= velocity (bird s) /\ velocity (bird s) <= 21 /\
  rotation (bird s) == velocity (bird s) * 3.
Proof.
  intro H. destruct (velocity_energy s H) as [V E].
  pose proof (velocity_at_most_21 (bird s) (bird_above_ground s H) E) as W.
  split; [exact V|]. split; [exact W|].
  unfold rotation, JUMP_FORCE in *.
  rewrite Q.max_l by lra. apply Q.min_l. lra.
Qed.

Lemma velocity_bounded_witness :
  velocity (bird (freeFall 30)) == 11.6 /\
  rotation (bird (freeFall 30)) == 34.8 /\
  rotation (bird (climb 3)) == -24.
Proof.
  destruct (velocity_bounded (freeFall 30) (reachable_freeFall 30)) as [_ [_ R]].
  destruct (velocity_bounded (climb 3) (reachable_climb 3)) as [_ [_ R']].
  split; [vm_compute; reflexivity|]. split.
  - rewrite R. vm_compute. reflexivity.
  - rewrite R'. vm_compute. reflexivity.
Defined.

(** ** Collisions *)

Lemma hitsPipe_false (b : Bird) (pipe : Pipe) :
  hitsPipe b pipe = false <->
  bird_x b + BIRD_SIZE <= pipe_x pipe \/
  pipe_x pipe + PIPE_WIDTH <= bird_x b \/
  (topHeight pipe <= bird_y b /\
   bird_y b + BIRD_SIZE <= gameHeight - GROUND_HEIGHT - bottomHeight pipe).
Proof.
  unfold hitsPipe.
  rewrite !andb_false_iff, orb_false_iff.
  rewrite !Qgtb_false, !Qltb_false. tauto.
Qed.



Lemma passed_pipes_behind (s : State) :
  reachable s ->
  forall p, In p (pipes s) -> passed p = true ->
    pipe_x p + PIPE_WIDTH < bird_x (bird s).
Proof.
  revert s.
  apply (reachable_induction
           (fun s => forall p, In p (pipes s) -> passed p = true ->
                     pipe_x p + PIPE_WIDTH < bird_x (bird s))).
  - intros p [].
  - intros s e _ _ IH. destruct e as [| |r now]; simpl step.
    + destruct (jump_fields s) as [-> [_ [-> _]]]. exact IH.
    + intros p [].
    + destruct (running s) eqn:R; [|now rewrite tick_not_running].
      destruct (tick_running_fields r now s R) as [-> [-> _]].
      rewrite birdUpdater_x. intros p' Hp' P.
      preimage Hp' p Hp.
      destruct (markPassed_fields (bird s) p) as [X [_ [_ [_ P']]]].
      rewrite X. rewrite P' in P. apply orb_true_iff in P.
      destruct P as [P | F].
      * unfold advancePipes in Hp.
        assert (K : In p (filter onScreen (map movePipe (pipes s)))).
        { destruct (needsPipe _); [|exact Hp].
          apply in_app_or in Hp. destruct Hp as [Hp | [<- | []]]; [exact Hp|].
          discriminate. }
        apply filter_In in K. destruct K as [K _].
        preimage K q Hq. specialize (IH q Hq P).
        cbn [movePipe pipe_x]. unfold PIPE_SPEED. lra.
      * unfold fires in F. apply andb_true_iff in F.
        destruct F as [_ F]. now apply Qgtb_true in F.
Qed.

(** X7.  In a reachable state a pipe of the list has [passed] set exactly
    when its right edge is left of the bird; such a pipe never collides with
    the bird, and a pipe that is scored in a tick is not hit in that tick. *)
Theorem passed_iff_behind_bird (s : State) :
  reachable s ->
  (forall p, In p (pipes s) ->
     (passed p = true <-> pipe_x p + PIPE_WIDTH < bird_x (bird s)) /\
     (passed p = true -> hitsPipe (bird s) p = false)) /\
  (forall b p, fires b p = true -> hitsPipe b p = false).
Proof.
  intro H. split.
  - intros p Hp. split; [split|].
    + now apply passed_pipes_behind.
    + now apply cleared_pipes_passed.
    + intro P. apply hitsPipe_false. right. left.
      apply Qlt_le_weak. now apply passed_pipes_behind.
  - intros b p F. apply hitsPipe_false. right. left.
    unfold fires in F. apply andb_true_iff in F. destruct F as [_ F].
    apply Qgtb_true in F. now apply Qlt_le_weak.
Qed.

Lemma reachable_afterClearing : reachable afterClearing.
Proof.
  apply reachable_tick; [apply (reachable_flight 0) | discriminate | reflexivity].
Qed.

Lemma passed_iff_behind_bird_witness :
  map passed (pipes afterClearing) = [true; false; false] /\
  forallb (fun p => implb (passed p) (negb (hitsPipe (bird afterClearing) p)))
          (pipes afterClearing) = true.
Proof.
  split; [vm_compute; reflexivity|].
  destruct (passed_iff_behind_bird afterClearing reachable_afterClearing)
    as [H _].
  apply forallb_forall. intros p Hp.
  destruct (H p Hp) as [_ N].
  destruct (passed p); [|reflexivity].
  rewrite N; reflexivity.
Defined.

(** ** The row of pipes *)

Lemma spacedFrom_ext (x x' : Q) (l : list Pipe) :
  x == x' -> spacedFrom x l -> spacedFrom x' l.
Proof.
  revert x x'. induction l as [|p l IH]; intros x x' E; [trivial|].
  cbn [spacedFrom]. intros [Hp Hl]. split.
  - now rewrite <- E.
  - apply (IH (x - pipeSpacing)); [now rewrite E | exact Hl].
Qed.

Lemma spacedFrom_le (x : Q) (l : list Pipe) :
  spacedFrom x l -> Forall (fun p => pipe_x p <= x) l.
Proof.
  revert x. induction l as [|p l IH]; intros x; [constructor|].
  cbn [spacedFrom]. intros [Hp Hl]. constructor.
  - rewrite Hp. apply Qle_refl.
  - specialize (IH _ Hl). rewrite Forall_forall in *. intros q Hq.
    specialize (IH q Hq). unfold pipeSpacing in IH. lra.
Qed.

Lemma spacedFrom_move (x : Q) (l : list Pipe) :
  spacedFrom x l -> spacedFrom (x - PIPE_SPEED) (map movePipe l).
Proof.
  revert x. induction l as [|p l IH]; intros x; [trivial|].
  cbn [spacedFrom map]. intros [Hp Hl]. split.
  - cbn [movePipe pipe_x]. now rewrite Hp.
  - apply (spacedFrom_ext (x - pipeSpacing - PIPE_SPEED)); [ring|].
    now apply IH.
Qed.

Lemma spacedFrom_onScreen (x : Q) (l : list Pipe) :
  spacedFrom x l -> spacedFrom x (filter onScreen l).
Proof.
  revert x. induction l as [|p l IH]; intros x; [trivial|].
  cbn [spacedFrom filter]. intros [Hp Hl].
  destruct (onScreen p) eqn:E.
  - split; [exact Hp | now apply IH].
  - rewrite filter_none; [exact I|].
    apply onScreen_false in E.
    pose proof (spacedFrom_le _ _ Hl) as L. rewrite Forall_forall in *.
    intros q Hq. specialize (L q Hq). apply onScreen_false.
    unfold pipeSpacing in L. lra.
Qed.

Lemma spacedFrom_markPassed (b : Bird) (x : Q) (l : list Pipe) :
  spacedFrom x l -> spacedFrom x (map (markPassed b) l).
Proof.
  revert x. induction l as [|p l IH]; intros x; [trivial|].
  cbn [spacedFrom map]. intros [Hp Hl]. split; [|now apply IH].
  destruct (markPassed_fields b p) as [-> _]. exact Hp.
Qed.

Lemma advancePipes_rev (r : Q) (now : Z) (ps : list Pipe) :
  rev (advancePipes r now ps) =
  if needsPipe (keptPipes ps)
  then generatePipe r now gameWidth :: keptPipes (rev ps)
  else keptPipes (rev ps).
Proof.
  unfold advancePipes. fold (keptPipes ps).
  destruct (needsPipe _).
  - rewrite rev_app_distr. cbn [rev app]. now rewrite keptPipes_rev.
  - apply keptPipes_rev.
Qed.

Lemma advancePipes_spaced (r : Q) (now : Z) (ps : list Pipe) :
  evenlySpaced ps -> evenlySpaced (advancePipes r now ps).
Proof.
  intros [k [[K0 K1] S]]. unfold evenlySpaced. rewrite advancePipes_rev.
  assert (M : spacedFrom (gameWidth - inject_Z (k + 1) * PIPE_SPEED)
                         (keptPipes (rev ps))).
  { unfold keptPipes. apply spacedFrom_onScreen.
    apply (spacedFrom_ext (gameWidth - inject_Z k * PIPE_SPEED - PIPE_SPEED)).
    - rewrite inject_Z_plus. change (inject_Z 1) with 1. ring.
    - now apply spacedFrom_move. }
  unfold needsPipe. rewrite keptPipes_rev.
  destruct (keptPipes (rev ps)) as [|h t] eqn:E.
  - exists 0%Z. split; [lia|]. cbn [spacedFrom]. split; [|exact I].
    cbn. unfold gameWidth, PIPE_SPEED. ring.
  - destruct M as [Hh Ht].
    assert (Q150 : inject_Z 150 == 150) by reflexivity.
    destruct (pipe_x h <? gameWidth - 300) eqn:N.
    + apply Qltb_true in N.
      assert (B : inject_Z 150 < inject_Z (k + 1)).
      { rewrite Hh in N. unfold gameWidth, PIPE_SPEED in N. lra. }
      rewrite <- Zlt_Qlt in B. assert (k = 150%Z) by lia. subst k.
      exists 0%Z. split; [lia|]. cbn [spacedFrom]. split.
      * cbn. unfold gameWidth, PIPE_SPEED. ring.
      * split.
        -- rewrite Hh. unfold gameWidth, PIPE_SPEED, pipeSpacing.
           vm_compute. reflexivity.
        -- revert Ht. apply spacedFrom_ext.
           unfold gameWidth, PIPE_SPEED, pipeSpacing. vm_compute. reflexivity.
    + apply Qltb_false in N.
      assert (B : inject_Z (k + 1) <= inject_Z 150).
      { rewrite Hh in N. unfold gameWidth, PIPE_SPEED in N. lra. }
      rewrite <- Zle_Qle in B.
      exists (k + 1)%Z. split; [lia|]. split; assumption.
Qed.

Lemma pipes_spaced (s : State) :
  reachable s ->
  evenlySpaced (pipes s) /\
  Forall (fun p => - PIPE_WIDTH < pipe_x p) (pipes s).
Proof.
  revert s. apply reachable_induction.
  - split; [|constructor]. exists 0%Z. split; [lia | exact I].
  - intros s e _ _ [S O]. destruct e as [| |r now]; simpl step.
    + destruct (jump_fields s) as [_ [_ [-> _]]]. now split.
    + split; [|constructor]. exists 0%Z. split; [lia | exact I].
    + destruct (running s) eqn:R; [|now rewrite tick_not_running].
      destruct (tick_running_fields r now s R) as [_ [-> _]]. split.
      * destruct (advancePipes_spaced r now (pipes s) S) as [k [K A]].
        exists k. split; [exact K|].
        rewrite <- map_rev. now apply spacedFrom_markPassed.
      * apply Forall_forall. intros p' Hp'. preimage Hp' p Hp.
        destruct (markPassed_fields (bird s) p) as [-> _].
        unfold advancePipes in Hp.
        assert (C : In p (filter onScreen (map movePipe (pipes s))) \/
                    p = generatePipe r now gameWidth).
        { destruct (needsPipe _); [|now left].
          apply in_app_or in Hp. destruct Hp as [Hp | [<- | []]]; auto. }
        destruct C as [C | ->].
        -- apply filter_In in C. destruct C as [_ C].
           now apply onScreen_true in C.
        -- reflexivity.
Qed.

Lemma spacedFrom_adjacent (x : Q) (a b : list Pipe) (q p : Pipe) :
  spacedFrom x (a ++ q :: p :: b) -> pipe_x q == pipe_x p + pipeSpacing.
Proof.
  revert x. induction a as [|h a IH]; intros x.
  - cbn [app spacedFrom]. intros [Hq [Hp _]]. rewrite Hq, Hp. ring.
  - cbn [app spacedFrom]. intros [_ H]. exact (IH _ H).
Qed.

Lemma spacedFrom_at_most_one (f : Pipe -> bool) (lo x : Q) (l : list Pipe) :
  spacedFrom x l ->
  (forall p, In p l -> f p = true ->
     lo <= pipe_x p /\ pipe_x p < lo + pipeSpacing) ->
  (length (filter f l) <= 1)%nat.
Proof.
  revert x. induction l as [|p l IH]; intros x S W; [cbn; lia|].
  cbn [spacedFrom] in S. destruct S as [Hp Hl]. cbn [filter].
  destruct (f p) eqn:F.
  - rewrite filter_none; [cbn; lia|].
    destruct (W p (or_introl eq_refl) F) as [_ Up].
    pose proof (spacedFrom_le _ _ Hl) as L. rewrite Forall_forall in *.
    intros q Hq. destruct (f q) eqn:Fq; [|reflexivity].
    destruct (W q (or_intror Hq) Fq) as [Lq _].
    specialize (L q Hq). lra.
  - apply (IH _ Hl). intros q Hq. apply W. now right.
Qed.

Lemma filter_rev_length {A} (f : A -> bool) (l : list A) :
  length (filter f (rev l)) = length (filter f l).
Proof. now rewrite filter_rev, length_rev. Qed.

(** X8.  In every reachable state the pipes stand in a row: each pipe is
    exactly 302 to the right of the pipe before it in the list, every pipe
    is between [-PIPE_WIDTH] and [gameWidth], and there are at most three. *)
Theorem pipes_in_a_row (s : State) :
  reachable s ->
  (forall l1 p q l2,
     pipes s = l1 ++ p :: q :: l2 -> pipe_x q == pipe_x p + pipeSpacing) /\
  Forall (fun p => - PIPE_WIDTH < pipe_x p /\ pipe_x p <= gameWidth) (pipes s) /\
  (length (pipes s) <= 3)%nat.
Proof.
  intro H. destruct (pipes_spaced s H) as [[k [[K0 K1] S]] O].
  destruct (pipes_ordered s H) as [F _].
  split; [|split].
  - intros l1 p q l2 E. rewrite E in S.
    rewrite rev_app_distr in S. cbn [rev] in S.
    rewrite <- !app_assoc in S. cbn [app] in S.
    exact (spacedFrom_adjacent _ _ _ _ _ S).
  - unfold inField in F. rewrite Forall_forall in *. intros p Hp.
    split; [now apply O | now apply F].
  - rewrite <- length_rev.
    apply Forall_rev in O.
    assert (X0 : gameWidth - inject_Z k * PIPE_SPEED <= gameWidth).
    { rewrite Zle_Qle in K0. change (inject_Z 0) with 0 in K0.
      unfold PIPE_SPEED. lra. }
    destruct (rev (pipes s)) as [|a [|b [|c [|d l]]]]; cbn [length]; try lia.
    exfalso. cbn [spacedFrom] in S.
    destruct S as [_ [_ [_ [Hd _]]]].
    inversion O as [|? ? _ O1]. inversion O1 as [|? ? _ O2].
    inversion O2 as [|? ? _ O3]. inversion O3 as [|? ? Od _].
    unfold gameWidth, pipeSpacing, PIPE_WIDTH in *. lra.
Qed.

Lemma pipes_in_a_row_witness :
  map pipe_x (pipes afterClearing) = [38; 340; 642] /\
  (length (pipes afterClearing) <= 3)%nat.
Proof.
  split; [vm_compute; reflexivity|].
  apply (pipes_in_a_row afterClearing reachable_afterClearing).
Defined.

(** X9.  A tick adds at most one point to the score, and at most one pipe
    of a reachable state overlaps the bird horizontally, so at most one pipe
    can end the game in a tick. *)
Theorem one_point_per_tick (r : Q) (now : Z) (s : State) :
  reachable s ->
  (score (tick r now s) <= score s + 1)%Z /\
  (length (filter (overlapsPipe (bird s)) (pipes s)) <= 1)%nat.
Proof.
  intro H. pose proof (bird_x_constant s H) as BX.
  destruct (pipes_spaced s H) as [S _]. split.
  - destruct (running s) eqn:R; [|rewrite tick_not_running by exact R; lia].
    destruct (tick_running_fields r now s R) as [_ [_ [_ [_ ->]]]].
    destruct (advancePipes_spaced r now (pipes s) S) as [k [_ A]].
    unfold countFires. rewrite <- filter_rev_length.
    assert (L : (length (filter (fires (bird s))
                           (rev (advancePipes r now (pipes s)))) <= 1)%nat).
    { apply (spacedFrom_at_most_one _ 38 _ _ A).
      intros p Hp F. apply in_rev in Hp.
      unfold fires in F. apply andb_true_iff in F. destruct F as [P F].
      apply negb_true_iff in P. apply Qgtb_true in F. rewrite BX in F.
      unfold pipeSpacing, PIPE_WIDTH in *. split; [|lra].
      unfold advancePipes in Hp.
      assert (C : In p (filter onScreen (map movePipe (pipes s))) \/
                  p = generatePipe r now gameWidth).
      { destruct (needsPipe _); [|now left].
        apply in_app_or in Hp. destruct Hp as [Hp | [<- | []]]; auto. }
      destruct C as [C | ->].
      - apply filter_In in C. destruct C as [C _]. preimage C q Hq.
        apply Qnot_lt_le. intro B.
        assert (Pq : passed q = true).
        { apply (cleared_pipes_passed s H q Hq). rewrite BX.
          cbn [movePipe pipe_x] in B. unfold PIPE_SPEED, PIPE_WIDTH in *. lra. }
        cbn [movePipe passed] in P. congruence.
      - cbn [generatePipe pipe_x] in F. unfold gameWidth in F. lra. }
    lia.
  - destruct S as [k [_ S]]. rewrite <- filter_rev_length.
    apply (spacedFrom_at_most_one _ 40 _ _ S).
    intros p _ O. unfold overlapsPipe in O. apply andb_true_iff in O.
    destruct O as [O1 O2]. apply Qgtb_true in O1. apply Qltb_true in O2.
    rewrite BX in *. unfold pipeSpacing, BIRD_SIZE, PIPE_WIDTH in *.
    split; lra.
Qed.

Lemma one_point_per_tick_witness :
  score beforeClearing = 0%Z /\
  (score (tick 0 0%Z beforeClearing) <= score beforeClearing + 1)%Z.
Proof.
  split; [vm_compute; reflexivity|].
  apply (one_point_per_tick 0 0%Z beforeClearing (reachable_flight 0)).
Defined.

(** ** Pipe ids *)

Lemma ids_filter (f : Pipe -> bool) (l : list Pipe) :
  NoDup (map pipe_id l) -> NoDup (map pipe_id (filter f l)).
Proof.
  induction l as [|p l IH]; [trivial|].
  cbn [map filter]. intro N. inversion N as [|? ? Hn Hl]; subst.
  destruct (f p); [|now apply IH].
  cbn [map]. constructor; [|now apply IH].
  intro Hin. apply Hn. apply in_map_iff in Hin.
  destruct Hin as [q [E Hq]]. apply filter_In in Hq.
  apply in_map_iff. exists q. tauto.
Qed.

Lemma ids_tick (r : Q) (now t : Z) (b : Bird) (ps : list Pipe) :
  (t < now)%Z ->
  Forall (fun p => (pipe_id p <= t)%Z) ps ->
  NoDup (map pipe_id ps) ->
  let ps' := map (markPassed b) (advancePipes r now ps) in
  Forall (fun p => (pipe_id p <= now)%Z) ps' /\ NoDup (map pipe_id ps').
Proof.
  intros T B N ps'.
  assert (I : map pipe_id ps' = map pipe_id (advancePipes r now ps)).
  { unfold ps'. rewrite map_map. apply map_ext. intro p.
    apply markPassed_fields. }
  assert (K : map pipe_id (filter onScreen (map movePipe ps)) =
              map pipe_id (filter (fun q => onScreen (movePipe q)) ps)).
  { rewrite filter_map_swap, map_map. reflexivity. }
  assert (BK : Forall (fun i => (i <= t)%Z)
                 (map pipe_id (filter (fun q => onScreen (movePipe q)) ps))).
  { apply Forall_forall. intros i Hi. apply in_map_iff in Hi.
    destruct Hi as [q [<- Hq]]. apply filter_In in Hq.
    rewrite Forall_forall in B. now apply B. }
  assert (J : Forall (fun i => (i <= now)%Z) (map pipe_id ps') /\
              NoDup (map pipe_id ps')).
  { rewrite I. unfold advancePipes. destruct (needsPipe _).
    - rewrite map_app, K. cbn [map generatePipe pipe_id]. split.
      + apply Forall_app. split.
        * revert BK. apply Forall_impl. intros; lia.
        * constructor; [lia | constructor].
      + apply NoDup_app.
        * now apply ids_filter.
        * constructor; [intros [] | constructor].
        * intros i Hi [<- | []]. rewrite Forall_forall in BK.
          specialize (BK _ Hi). lia.
    - rewrite K. split.
      + revert BK. apply Forall_impl. intros; lia.
      + now apply ids_filter. }
  destruct J as [J1 J2]. split; [|exact J2].
  rewrite Forall_forall in *. intros p Hp. apply J1. now apply in_map.
Qed.

Lemma ids_run (es : list Event) (s : State) (t : Z) :
  Forall (fun p => (pipe_id p <= t)%Z) (pipes s) ->
  NoDup (map pipe_id (pipes s)) ->
  clockIncreasing t es = true ->
  NoDup (map pipe_id (pipes (run es s))).
Proof.
  revert s t. induction es as [|e es IH]; intros s t B N C; [exact N|].
  change (run (e :: es) s) with (run es (step s e)).
  destruct e as [| |r now]; cbn [clockIncreasing] in C; simpl step.
  - apply (IH _ t); [| |exact C];
      destruct (jump_fields s) as [_ [_ [-> _]]]; assumption.
  - apply (IH _ t); [constructor | constructor | exact C].
  - apply andb_true_iff in C. destruct C as [T C]. apply Z.ltb_lt in T.
    destruct (running s) eqn:R.
    + destruct (tick_running_fields r now s R) as [_ [E _]].
      destruct (ids_tick r now t (bird s) (pipes s) T B N) as [B' N'].
      apply (IH _ now); [| |exact C]; rewrite E; assumption.
    + rewrite tick_not_running by exact R.
      apply (IH _ now); [|exact N|exact C].
      revert B. apply Forall_impl. intros; lia.
Qed.

(** X10.  If [Date.now()] grows from each tick to the next, the pipes of the
    list have pairwise different ids (the ids are the React keys of the
    pipes). *)
Theorem pipe_ids_distinct (es : list Event) (t : Z) :
  clockIncreasing t es = true ->
  NoDup (map pipe_id (pipes (run es initialState))).
Proof.
  intro C. apply (ids_run es initialState t); [constructor | constructor | exact C].
Qed.

Lemma pipe_ids_distinct_witness :
  map pipe_id (pipes (run (stamp 1 (flight 0)) initialState)) =
    [1; 2568; 5135]%Z /\
  NoDup (map pipe_id (pipes (run (stamp 1 (flight 0)) initialState))).
Proof.
  split; [vm_compute; reflexivity|].
  apply (pipe_ids_distinct (stamp 1 (flight 0)) 0%Z).
  vm_compute. reflexivity.
Defined.

(** ** The interval and the reset *)

(** X11.  The interval is installed exactly while the game is running:
    after any sequence of events the component holds a callback if and only
    if the game is started and not over. *)
Theorem interval_iff_running (es : list Event) :
  (running (state (componentRun es)) = true ->
     exists captured, interval (componentRun es) = Some captured) /\
  (running (state (componentRun es)) = false ->
     interval (componentRun es) = None).
Proof.
  destruct (componentRun_sound es) as [F _]. unfold closureFresh in F.
  split; intro R; rewrite R in F.
  - destruct F as [b [E _]]. now exists b.
  - exact F.
Qed.

Lemma interval_iff_running_witness :
  interval (componentRun [Jump]) = Some initialBird /\
  interval (componentRun (Jump :: repeat (Tick 0.5 0%Z) 30)) = None.
Proof.
  destruct (interval_iff_running [Jump]) as [On _].
  destruct (interval_iff_running (Jump :: repeat (Tick 0.5 0%Z) 30)) as [_ Off].
  split.
  - destruct On as [b Hb]; [vm_compute; reflexivity|].
    vm_compute. reflexivity.
  - apply Off. vm_compute. reflexivity.
Defined.

Lemma reset_mount (c : Component) :
  closureFresh c -> componentStep c ResetGame = mount.
Proof.
  intro F. cbn [componentStep]. unfold render, mount.
  change (resetGame (state c)) with initialState.
  destruct (sameDeps (state c) initialState) eqn:D; [|reflexivity].
  destruct (sameDeps_spec _ _ D) as [R _].
  unfold closureFresh in F. rewrite R in F.
  change (running initialState) with false in F. cbn iota in F.
  now rewrite F.
Qed.

(** X12.  [resetGame] forgets the game: whatever happened before it, the
    component afterwards behaves as a freshly mounted one, state and interval
    alike. *)
Theorem reset_forgets_history (es es' : list Event) :
  componentRun (es ++ ResetGame :: es') = componentRun es' /\
  run (es ++ ResetGame :: es') initialState = run es' initialState.
Proof.
  assert (C : componentRun (es ++ ResetGame :: es') = componentRun es').
  { unfold componentRun. rewrite fold_left_app. cbn [fold_left].
    fold (componentRun es).
    now rewrite (reset_mount _ (proj1 (componentRun_sound es))). }
  split; [exact C|].
  rewrite <- (proj2 (componentRun_sound (es ++ ResetGame :: es'))).
  rewrite <- (proj2 (componentRun_sound es')). now rewrite C.
Qed.

(** ** Gravity ends the game *)

Lemma fallVelocity_mono (n m : nat) :
  (n <= m)%nat -> fallVelocity n <= fallVelocity m.
Proof.
  induction 1 as [|m _ IH]; [apply Qle_refl|].
  cbn [fallVelocity]. unfold GRAVITY. lra.
Qed.

Lemma fallVelocity_rising (n : nat) :
  fallVelocity n < 0 -> fallVelocity (S n) <= 0.
Proof.
  intro H. destruct (Nat.le_gt_cases 20 n) as [L | L].
  - pose proof (fallVelocity_mono 20 n L) as M.
    assert (Z20 : fallVelocity 20 == 0) by (vm_compute; reflexivity).
    lra.
  - pose proof (fallVelocity_mono (S n) 20 L) as M.
    assert (Z20 : fallVelocity 20 == 0) by (vm_compute; reflexivity).
    lra.
Qed.

Lemma over_stays_over (es : list Event) (s : State) :
  gameOver s = true -> forallb isTick es = true -> run es s = s.
Proof.
  intros O. induction es as [|e es IH]; [reflexivity|].
  cbn [forallb]. rewrite andb_true_iff. intros [E Es].
  destruct e as [| |r now]; try discriminate.
  change (run (Tick r now :: es) s) with (run es (tick r now s)).
  rewrite tick_not_running; [now apply IH|].
  unfold running. now rewrite O, andb_false_r.
Qed.

Lemma fallingFor_tick (n : nat) (r : Q) (now : Z) (s : State) :
  fallingFor n s -> fallingFor (S n) (tick r now s).
Proof.
  intros [O | [R [Y0 [Y1 [V D]]]]].
  - left. rewrite tick_not_running; [exact O|].
    unfold running. now rewrite O, andb_false_r.
  - destruct (tick_running_fields r now s R) as [Hb [_ [Hs [Ho _]]]].
    destruct (gameOver (tick r now s)) eqn:O'; [now left|].
    right. split; [unfold running; now rewrite Hs, O'|].
    rewrite Hb. clear Hb. symmetry in Ho.
    apply orb_false_iff in Ho. destruct Ho as [Ho _].
    unfold birdUpdater in *. fold groundLimit in *.
    destruct (_ >? _) eqn:G; [discriminate|]. apply Qgtb_false in G.
    cbn [fallVelocity fallDepth].
    destruct (bird_y (bird s) + velocity (bird s) <? 0) eqn:C;
      cbn [fst bird_y velocity].
    + apply Qltb_true in C.
      assert (N : fallVelocity n < 0) by lra.
      pose proof (fallVelocity_rising n N) as U. cbn [fallVelocity] in U.
      apply Qltb_true in N. rewrite N.
      unfold groundLimit, gameHeight, GROUND_HEIGHT, BIRD_SIZE.
      repeat split; lra.
    + apply Qltb_false in C.
      repeat split; try lra.
      destruct (fallVelocity n <? 0); lra.
Qed.

Lemma fallingFor_run (es : list Event) (n : nat) (s : State) :
  fallingFor n s -> forallb isTick es = true ->
  fallingFor (length es + n) (run es s).
Proof.
  revert n s. induction es as [|e es IH]; intros n s F T; [exact F|].
  cbn [forallb] in T. apply andb_true_iff in T. destruct T as [E T].
  destruct e as [| |r now]; try discriminate.
  change (run (Tick r now :: es) s) with (run es (tick r now s)).
  cbn [length]. rewrite Nat.add_succ_comm.
  apply IH; [now apply fallingFor_tick | exact T].
Qed.

(** X13.  Gravity ends the game: from any reachable state of a started game,
    67 ticks without a jump or reset in between leave the game over,
    whatever the pipes and the random numbers are. *)
Theorem gravity_ends_the_game (s : State) (es : list Event) :
  reachable s -> gameStarted s = true ->
  forallb isTick es = true -> (67 <= length es)%nat ->
  gameOver (run es s) = true.
Proof.
  intros H S T L.
  assert (F0 : fallingFor 0 s).
  { destruct (gameOver s) eqn:O; [now left|]. right.
    split; [unfold running; now rewrite S, O|].
    split; [now apply bird_y_nonneg|].
    split; [now apply bird_above_ground|].
    split; [apply (velocity_energy s H) | now apply bird_y_nonneg]. }
  rewrite <- (firstn_skipn 67 es) in T |- *.
  rewrite forallb_app in T. apply andb_true_iff in T. destruct T as [T1 T2].
  unfold run. rewrite fold_left_app. fold (run (firstn 67 es) s).
  fold (run (skipn 67 es) (run (firstn 67 es) s)).
  assert (O : gameOver (run (firstn 67 es) s) = true).
  { pose proof (fallingFor_run _ 0 s F0 T1) as F.
    rewrite length_firstn, Nat.min_l, Nat.add_0_r in F by exact L.
    destruct F as [O | [_ [_ [Y1 [_ D]]]]]; [exact O|].
    exfalso.
    assert (B : groundLimit < fallDepth 67) by (vm_compute; reflexivity).
    lra. }
  now rewrite (over_stays_over _ _ O T2).
Qed.

Lemma gravity_ends_the_game_witness :
  gameOver (run (repeat (Tick 0 0%Z) 67) (climb 5)) = true.
Proof.
  apply (gravity_ends_the_game (climb 5) _ (reachable_climb 5)).
  - vm_compute. reflexivity.
  - vm_compute. reflexivity.
  - vm_compute. reflexivity.
Defined.

(** ** Both parts of a pipe *)

(** X14.  Every pipe of a reachable state has a top part and a bottom part
    at least 50 high, and its opening of height [PIPE_GAP] ends at least 50
    above the ground line. *)
Theorem pipe_parts_visible (s : State) (p : Pipe) :
  reachable s -> In p (pipes s) ->
  50 <= topHeight p /\ 50 <= bottomHeight p /\
  topHeight p + PIPE_GAP <= gameHeight - GROUND_HEIGHT - 50.
Proof.
  intros H Hp. pose proof (pipes_ok s H) as OK.
  rewrite Forall_forall in OK. destruct (OK p Hp) as [G [T0 T1]].
  unfold maxGapTop, minGapTop, gameHeight, GROUND_HEIGHT, PIPE_GAP in *.
  repeat split; lra.
Qed.

Lemma pipe_parts_visible_witness :
  50 <= bottomHeight (generatePipe 0.5 0%Z gameWidth) /\
  bottomHeight (generatePipe 0.5 0%Z gameWidth) == 145.
Proof.
  split; [|vm_compute; reflexivity].
  apply (pipe_parts_visible (tick 0.5 0%Z (freeFall 0))).
  - apply reachable_tick;
      [apply reachable_freeFall | discriminate | reflexivity].
  - vm_compute. left. reflexivity.
Defined.
